(** * Global service registry of mcc (pkg/datamodel)

    Shallow embedding of the data model of [pkg/datamodel/model.go]
    ([Port], [GlobalService]) and of the registry built on it: the address
    pool, the per-cluster contribute/withdraw verbs, the read operations,
    hard deletion and the per-cluster contribution handler, together with
    the JSON form of the records given by their struct tags, and the
    kubeconfig path handling of the [ui] command ([expand]). *)

From stdpp Require Import base gmap strings list.
From Stdlib Require Import String Ascii NArith Sorted.

(* ------------------------------------------------------------------ *)
(** ** Data model ([model.go]) *)

(** [type Port struct].  The Go field [Name] is called [PortName] here,
    because [GlobalService] has a field [Name] as well. Ports are [uint32]
    values, kept as [N]. *)
Record Port := mkPort {
  ServicePort : N;
  Protocol : string;
  BackendPort : N;
  PortName : string
}.

(** [net.IP]: the registry hands out IPv4 virtual addresses, kept as a
    32-bit value. *)
Abbreviation IP := N (only parsing).

(** [type GlobalService struct]; [Backends map[string]string] is a gmap. *)
Record GlobalService := mkGlobalService {
  Name : string;
  DNSPrefixes : list string;
  Ports : list Port;
  Backends : gmap string string;
  Address : IP;
  Unregistered : bool
}.

(** [type Cluster struct]. *)
Record Cluster := mkCluster { ClusterName : string; ClusterAddress : string }.

(* ------------------------------------------------------------------ *)
(** ** Ordering of strings (lexicographic, as [sort.Strings]) *)

Definition str_lt (a b : string) : Prop := String.compare a b = Lt.

(* ------------------------------------------------------------------ *)
(** ** Errors (spec section 7) *)

Inductive RegistryError :=
  | NotFoundError
  | AlreadyExistsError
  | ConflictError
  | ValidationError
  | PoolExhaustedError
  | PreconditionFailedError.

Global Instance RegistryError_eq_dec : EqDecision RegistryError.
Proof. solve_decision. Defined.

(* ------------------------------------------------------------------ *)
(** ** Address pool *)

(** Modelled from the spec: the Address Pool (spec 4.2) is not in the
    sources. A fixed range [base, base + size) of addresses; [in_use] are
    the addresses currently held by a service. *)
Record Pool := mkPool { base : N; size : nat; in_use : gset N }.

Fixpoint first_free (b : N) (i fuel : nat) (used : gset N) : option N :=
  match fuel with
  | O => None
  | S f =>
      if decide ((b + N.of_nat i)%N ∈ used)
      then first_free b (S i) f used
      else Some (b + N.of_nat i)%N
  end.

(** Modelled from the spec: [Allocate] returns the lowest address of the
    range not in use, or fails when the pool is exhausted. *)
Definition Allocate (p : Pool) : option (IP * Pool) :=
  match first_free (base p) 0 (size p) (in_use p) with
  | None => None
  | Some a => Some (a, {| base := base p; size := size p;
                          in_use := {[a]} ∪ in_use p |})
  end.

(** Modelled from the spec: [Release] returns an address to the pool. *)
Definition Release (a : IP) (p : Pool) : Pool :=
  {| base := base p; size := size p; in_use := in_use p ∖ {[a]} |}.

(* ------------------------------------------------------------------ *)
(** ** Registry (spec 4.1) *)

(** Modelled from the spec: the in-memory store behind [DataModel] is not
    in the sources. One entry per service name: the DNS prefix set kept as
    a strictly sorted list, the ports as a mapping by port name, the
    backends per cluster, the allocated address and the flag. *)
Record Entry := mkEntry {
  e_dns : list string;
  e_ports : gmap string Port;
  e_backends : gmap string string;
  e_address : IP;
  e_unregistered : bool
}.

Record Registry := mkRegistry {
  services : gmap string Entry;
  pool : Pool
}.

(** Insertion of one prefix into the sorted prefix list (a set: an equal
    prefix is not inserted twice). *)
Fixpoint insert_sorted (x : string) (l : list string) : list string :=
  match l with
  | [] => [x]
  | y :: l' =>
      match String.compare x y with
      | Lt => x :: l
      | Eq => l
      | Gt => y :: insert_sorted x l'
      end
  end.

(** Modelled from the spec: union of the contributed prefixes into the set. *)
Definition dns_union (l : list string) (new : list string) : list string :=
  fold_left (fun acc x => insert_sorted x acc) new l.

(** Modelled from the spec: merge of one port into the port set by name;
    a port of the same name with another [ServicePort] or [Protocol] is a
    conflict. [BackendPort] is not checked and the last writer wins. *)
Definition merge_port (m : gmap string Port) (p : Port) : option (gmap string Port) :=
  match m !! PortName p with
  | Some q =>
      if decide (ServicePort q = ServicePort p /\ Protocol q = Protocol p)
      then Some (<[PortName p := p]> m)
      else None
  | None => Some (<[PortName p := p]> m)
  end.

Fixpoint merge_ports (m : gmap string Port) (ps : list Port) : option (gmap string Port) :=
  match ps with
  | [] => Some m
  | p :: ps' =>
      match merge_port m p with
      | None => None
      | Some m' => merge_ports m' ps'
      end
  end.

(** The effect of one contribution on an entry, or [None] on a port
    conflict. *)
Definition contribute_entry (clusterName : string) (ports : list Port)
    (backendAddress : string) (dnsPrefixes : list string) (e : Entry) : option Entry :=
  match merge_ports (e_ports e) ports with
  | None => None
  | Some ps =>
      Some {| e_dns := dns_union (e_dns e) dnsPrefixes;
              e_ports := ps;
              e_backends := <[clusterName := backendAddress]> (e_backends e);
              e_address := e_address e;
              e_unregistered := false |}
  end.

Definition new_entry (a : IP) : Entry :=
  {| e_dns := []; e_ports := ∅; e_backends := ∅; e_address := a;
     e_unregistered := false |}.

(** Modelled from the spec: [Contribute(serviceName, clusterName, ports,
    backendAddress, dnsPrefixes) -> error], atomic and all-or-nothing: on
    an error the registry is returned unchanged. *)
Definition Contribute (serviceName clusterName : string) (ports : list Port)
    (backendAddress : string) (dnsPrefixes : list string) (r : Registry)
    : option RegistryError * Registry :=
  match services r !! serviceName with
  | Some e =>
      match contribute_entry clusterName ports backendAddress dnsPrefixes e with
      | None => (Some ConflictError, r)
      | Some e' => (None, {| services := <[serviceName := e']> (services r);
                             pool := pool r |})
      end
  | None =>
      match Allocate (pool r) with
      | None => (Some PoolExhaustedError, r)
      | Some (a, p') =>
          match contribute_entry clusterName ports backendAddress dnsPrefixes (new_entry a) with
          | None => (Some ConflictError, r)
          | Some e' => (None, {| services := <[serviceName := e']> (services r);
                                 pool := p' |})
          end
      end
  end.

(** Removal of one cluster's backend; when the last backend goes, the
    entry becomes unregistered. *)
Definition withdraw_entry (clusterName : string) (e : Entry) : Entry :=
  let b := delete clusterName (e_backends e) in
  {| e_dns := e_dns e; e_ports := e_ports e; e_backends := b;
     e_address := e_address e;
     e_unregistered := if decide (b = ∅) then true else e_unregistered e |}.

(** Modelled from the spec: [Withdraw(serviceName, clusterName) -> error].
    An absent service is [NotFoundError]; an absent cluster entry is a
    no-op (replayed removals are idempotent). *)
Definition Withdraw (serviceName clusterName : string) (r : Registry)
    : option RegistryError * Registry :=
  match services r !! serviceName with
  | None => (Some NotFoundError, r)
  | Some e =>
      match e_backends e !! clusterName with
      | None => (None, r)
      | Some _ =>
          (None, {| services := <[serviceName := withdraw_entry clusterName e]> (services r);
                    pool := pool r |})
      end
  end.

(** The record a reader sees ([GlobalService]). *)
Definition to_global (serviceName : string) (e : Entry) : GlobalService :=
  {| Name := serviceName;
     DNSPrefixes := e_dns e;
     Ports := (map_to_list (e_ports e)).*2;
     Backends := e_backends e;
     Address := e_address e;
     Unregistered := e_unregistered e |}.

(** Modelled from the spec: [Get(serviceName) -> (GlobalService, error)]. *)
Definition Get (serviceName : string) (r : Registry) : RegistryError + GlobalService :=
  match services r !! serviceName with
  | None => inl NotFoundError
  | Some e => inr (to_global serviceName e)
  end.

(** Modelled from the spec: [List() -> mapping(name -> GlobalService)]. *)
Definition List (r : Registry) : gmap string GlobalService :=
  map_imap (fun k e => Some (to_global k e)) (services r).

(** Modelled from the spec: [Delete(serviceName) -> error]. *)
Definition Delete (serviceName : string) (r : Registry) : option RegistryError * Registry :=
  match services r !! serviceName with
  | None => (Some NotFoundError, r)
  | Some e =>
      if e_unregistered e
      then (None, {| services := delete serviceName (services r);
                     pool := Release (e_address e) (pool r) |})
      else (Some PreconditionFailedError, r)
  end.

(** The registry operations, and the state after each. Reads leave the
    state as it is. *)
Inductive Op :=
  | OpContribute (serviceName clusterName : string) (ports : list Port)
      (backendAddress : string) (dnsPrefixes : list string)
  | OpWithdraw (serviceName clusterName : string)
  | OpGet (serviceName : string)
  | OpList
  | OpDelete (serviceName : string).

Definition exec (o : Op) (r : Registry) : option RegistryError * Registry :=
  match o with
  | OpContribute s c ps a d => Contribute s c ps a d r
  | OpWithdraw s c => Withdraw s c r
  | OpGet s => (match Get s r with inl err => Some err | inr _ => None end, r)
  | OpList => (None, r)
  | OpDelete s => Delete s r
  end.

Definition step (o : Op) (r : Registry) : Registry := snd (exec o r).

(** Runs a sequence of operations, collecting the error of each. *)
Fixpoint run (ops : list Op) (r : Registry) : list (option RegistryError) * Registry :=
  match ops with
  | [] => ([], r)
  | o :: ops' =>
      let (err, r1) := exec o r in
      let (errs, r2) := run ops' r1 in
      (err :: errs, r2)
  end.

(** All interleavings of the operations of two workers, each worker's own
    order being kept. *)
Fixpoint interleavings (xs ys : list Op) {struct xs} : list (list Op) :=
  match xs with
  | [] => [ys]
  | x :: xs' =>
      (fix go (ys : list Op) : list (list Op) :=
         match ys with
         | [] => [x :: xs']
         | y :: ys' => map (cons x) (interleavings xs' ys) ++ map (cons y) (go ys')
         end) ys
  end.

Definition empty_registry (p : Pool) : Registry :=
  {| services := ∅; pool := p |}.

(** States reachable from an empty registry by any sequence of operations. *)
Inductive reachable : Registry -> Prop :=
  | reach_init p : reachable (empty_registry p)
  | reach_step o r : reachable r -> reachable (step o r).

(* ------------------------------------------------------------------ *)
(** ** Cluster contribution handler (spec 4.3) *)

Inductive EventKind := Added | Updated | Removed.

Definition valid_protocols : list string :=
  ["HTTP"; "HTTPS"; "GRPC"; "HTTP2"; "MONGO"; "TCP"].

(** [Protocol] "MUST BE one of HTTP|HTTPS|GRPC|HTTP2|MONGO|TCP" ([model.go]). *)
Definition valid_protocol (s : string) : bool := bool_decide (s ∈ valid_protocols).

(** Modelled from the spec: the boundary validation (spec 6 and 7): an
    out-of-set protocol or an empty service name is a [ValidationError]. *)
Definition validate (serviceName : string) (ports : list Port) : bool :=
  negb (String.eqb serviceName "") && forallb (fun p => valid_protocol (Protocol p)) ports.

(** Modelled from the spec: [HandleEvent] of the handler bound to
    [clusterName]. [NotFoundError] of a withdrawal is swallowed. *)
Definition HandleEvent (clusterName : string) (k : EventKind) (serviceName : string)
    (ports : list Port) (backendAddress : string) (dnsPrefixes : list string)
    (r : Registry) : option RegistryError * Registry :=
  match k with
  | Added | Updated =>
      if validate serviceName ports
      then Contribute serviceName clusterName ports backendAddress dnsPrefixes r
      else (Some ValidationError, r)
  | Removed =>
      match Withdraw serviceName clusterName r with
      | (Some NotFoundError, r') => (None, r')
      | res => res
      end
  end.

(** States reachable when every contribution and withdrawal arrives
    through a handler, next to the reads and the hard deletes of the
    cleanup process. *)
Inductive handled_reachable : Registry -> Prop :=
  | hreach_init p : handled_reachable (empty_registry p)
  | hreach_event c k s ps a d r :
      handled_reachable r -> handled_reachable (snd (HandleEvent c k s ps a d r))
  | hreach_get s r : handled_reachable r -> handled_reachable (step (OpGet s) r)
  | hreach_list r : handled_reachable r -> handled_reachable (step OpList r)
  | hreach_delete s r : handled_reachable r -> handled_reachable (step (OpDelete s) r).

(* ------------------------------------------------------------------ *)
(** ** JSON form of the records (struct tags of [model.go])

    The encoding follows [encoding/json]: struct fields in declaration
    order under their tag names, [omitempty] drops a [false] bool, map keys
    are sorted, [net.IP] is written as its text form (dotted decimal for
    IPv4), and strings (map keys included) are written with each byte that
    is not part of valid UTF-8 replaced by U+FFFD.

    A [json] value stands for a JSON text as the reader sees it: strings
    are the unquoted values, numbers the non-negative integers.

    The model holds no nil values: its slices and maps are non-nil (written
    [[]] and [{}]; a nil one would be written [null]) and its address is an
    IPv4 address. A [null] (or, for the address, an empty string), which
    Go decodes to a nil slice, map or [net.IP], is decoded to the empty
    list, the empty map, or the address 0. *)

#[local] Set Warnings "-register-all".
Inductive json :=
  | JNull
  | JBool (b : bool)
  | JNum (n : N)
  | JStr (s : string)
  | JArr (l : list json)
  | JObj (l : list (string * json)).

Definition json_keys (v : json) : list string :=
  match v with
  | JObj kvs => kvs.*1
  | _ => []
  end.

(** *** UTF-8 ([unicode/utf8]) *)

Definition RuneError : N := 65533.

(** The tables [first] and [acceptRanges]: for a non-ASCII first byte, the
    length of the sequence it starts and the range allowed for the second
    byte; [None] for a byte that starts no sequence. *)
Definition first_info (b : N) : option (nat * N * N) :=
  if (b <? 194)%N then None
  else if (b <=? 223)%N then Some (2%nat, 128%N, 191%N)
  else if (b =? 224)%N then Some (3%nat, 160%N, 191%N)
  else if (b <=? 236)%N then Some (3%nat, 128%N, 191%N)
  else if (b =? 237)%N then Some (3%nat, 128%N, 159%N)
  else if (b <=? 239)%N then Some (3%nat, 128%N, 191%N)
  else if (b =? 240)%N then Some (4%nat, 144%N, 191%N)
  else if (b <=? 243)%N then Some (4%nat, 128%N, 191%N)
  else if (b =? 244)%N then Some (4%nat, 128%N, 143%N)
  else None.

(** [locb <= b <= hicb]. *)
Definition is_cont (b : N) : bool := (128 <=? b)%N && (b <=? 191)%N.

(** [utf8.DecodeRuneInString]: the first rune and its width in bytes;
    [(RuneError, 1)] for a byte that does not start a valid sequence. *)
Definition DecodeRune (s : string) : N * nat :=
  match s with
  | EmptyString => (RuneError, 0%nat)
  | String c0 s1 =>
      let p0 := N_of_ascii c0 in
      if (p0 <? 128)%N then (p0, 1%nat) else
      match first_info p0 with
      | None => (RuneError, 1%nat)
      | Some (sz, lo, hi) =>
          if (String.length s <? sz)%nat then (RuneError, 1%nat) else
          match s1 with
          | EmptyString => (RuneError, 1%nat)
          | String c1 s2 =>
              let b1 := N_of_ascii c1 in
              if (b1 <? lo)%N || (hi <? b1)%N then (RuneError, 1%nat)
              else if (sz <=? 2)%nat then
                (N.lor (N.shiftl (N.land p0 31) 6) (N.land b1 63), 2%nat)
              else
                match s2 with
                | EmptyString => (RuneError, 1%nat)
                | String c2 s3 =>
                    let b2 := N_of_ascii c2 in
                    if negb (is_cont b2) then (RuneError, 1%nat)
                    else if (sz <=? 3)%nat then
                      (N.lor (N.lor (N.shiftl (N.land p0 15) 12) (N.shiftl (N.land b1 63) 6))
                         (N.land b2 63), 3%nat)
                    else
                      match s3 with
                      | EmptyString => (RuneError, 1%nat)
                      | String c3 _ =>
                          let b3 := N_of_ascii c3 in
                          if negb (is_cont b3) then (RuneError, 1%nat)
                          else (N.lor (N.lor (N.lor (N.shiftl (N.land p0 7) 18)
                                                    (N.shiftl (N.land b1 63) 12))
                                             (N.shiftl (N.land b2 63) 6))
                                      (N.land b3 63), 4%nat)
                      end
                end
          end
      end
  end.

Fixpoint string_take (n : nat) (s : string) : string :=
  match n, s with
  | O, _ | _, EmptyString => EmptyString
  | S n', String c s' => String c (string_take n' s')
  end.

Fixpoint string_drop (n : nat) (s : string) : string :=
  match n, s with
  | O, _ | _, EmptyString => s
  | S n', String _ s' => string_drop n' s'
  end.

(** U+FFFD in UTF-8. *)
Definition replacement_char : string :=
  String (ascii_of_N 239) (String (ascii_of_N 191) (String (ascii_of_N 189) EmptyString)).

(** The string loop of [encodeState] (and the reader's [unquote]): ASCII
    bytes and valid sequences are kept, a byte on which [DecodeRune] gives
    [(RuneError, 1)] is replaced by U+FFFD. *)
Fixpoint coerce_loop (fuel : nat) (s : string) : string :=
  match fuel with
  | O => s
  | S f =>
      match s with
      | EmptyString => EmptyString
      | String c s' =>
          if (N_of_ascii c <? 128)%N then String c (coerce_loop f s')
          else
            let (r, size) := DecodeRune s in
            if (r =? RuneError)%N && (size =? 1)%nat
            then String.append replacement_char (coerce_loop f s')
            else String.append (string_take size s) (coerce_loop f (string_drop size s))
      end
  end.

Definition coerce_utf8 (s : string) : string := coerce_loop (String.length s) s.

(** [utf8.ValidString]: no byte decodes to [(RuneError, 1)]. *)
Fixpoint valid_loop (fuel : nat) (s : string) : bool :=
  match fuel with
  | O => true
  | S f =>
      match s with
      | EmptyString => true
      | String c s' =>
          if (N_of_ascii c <? 128)%N then valid_loop f s'
          else
            let (r, size) := DecodeRune s in
            if (r =? RuneError)%N && (size =? 1)%nat then false
            else valid_loop f (string_drop size s)
      end
  end.

Definition ValidString (s : string) : bool := valid_loop (String.length s) s.

(** *** Encoding *)

Definition encode_Port (p : Port) : json :=
  JObj [("service_port", JNum (ServicePort p));
        ("protocol", JStr (coerce_utf8 (Protocol p)));
        ("backend_port", JNum (BackendPort p));
        ("name", JStr (coerce_utf8 (PortName p)))].

Fixpoint insert_by_key (kv : string * string) (l : list (string * string))
    : list (string * string) :=
  match l with
  | [] => [kv]
  | kv' :: l' =>
      match String.compare kv.1 kv'.1 with
      | Gt => kv' :: insert_by_key kv l'
      | _ => kv :: l
      end
  end.

Definition sort_by_key (l : list (string * string)) : list (string * string) :=
  foldr insert_by_key [] l.

Definition digit_char (d : N) : ascii := ascii_of_N (48 + d).

Definition octet_string (n : N) : string :=
  if (n <? 10)%N then String (digit_char n) EmptyString
  else if (n <? 100)%N then
    String (digit_char (n / 10)) (String (digit_char (n mod 10)) EmptyString)
  else
    String (digit_char (n / 100))
      (String (digit_char (n / 10 mod 10)) (String (digit_char (n mod 10)) EmptyString)).

(** [net.IP.String] of an IPv4 address. *)
Definition ip_string (a : IP) : string :=
  String.append (octet_string (a / 2 ^ 24 mod 256))
    (String "." (String.append (octet_string (a / 2 ^ 16 mod 256))
      (String "." (String.append (octet_string (a / 2 ^ 8 mod 256))
        (String "." (octet_string (a mod 256))))))).

(** The map is written in the order of its keys ([strings.Compare] on the
    keys as they are), each key and value then written as a string. *)
Definition encode_GlobalService (g : GlobalService) : json :=
  JObj ([("name", JStr (coerce_utf8 (Name g)));
         ("dns_prefixes", JArr (map (fun s => JStr (coerce_utf8 s)) (DNSPrefixes g)));
         ("ports", JArr (map encode_Port (Ports g)));
         ("backends", JObj (map (fun kv => (coerce_utf8 kv.1, JStr (coerce_utf8 kv.2)))
                               (sort_by_key (map_to_list (Backends g)))));
         ("address", JStr (ip_string (Address g)))] ++
        (if Unregistered g then [("unregistered", JBool true)] else [])).

(** *** Decoding ([json.Unmarshal]) *)

Fixpoint split_dot (s : string) : list string :=
  match s with
  | EmptyString => [EmptyString]
  | String c s' =>
      if Ascii.eqb c "." then EmptyString :: split_dot s'
      else match split_dot s' with
           | [] => [String c EmptyString]
           | f :: fs => String c f :: fs
           end
  end.

Definition digit_value (c : ascii) : option N :=
  let n := N_of_ascii c in
  if (48 <=? n)%N && (n <=? 57)%N then Some (n - 48)%N else None.

Fixpoint parse_digits (s : string) (acc : N) : option N :=
  match s with
  | EmptyString => Some acc
  | String c s' =>
      match digit_value c with
      | None => None
      | Some d => parse_digits s' (acc * 10 + d)%N
      end
  end.

(** One field of a dotted IPv4 address: one to three digits, no leading
    zero, at most 255. *)
Definition parse_octet (s : string) : option N :=
  match s with
  | EmptyString => None
  | String c s' =>
      if (String.length s <=? 3)%nat && (negb (Ascii.eqb c "0") || String.eqb s' "")
      then match parse_digits s 0 with
           | Some n => if (n <=? 255)%N then Some n else None
           | None => None
           end
      else None
  end.

(** [net.ParseIP] on IPv4 text. The IPv6 forms it also accepts give
    addresses outside the IPv4 addresses of the model, and are reported
    here as a failed parse. *)
Definition ParseIP (s : string) : option IP :=
  match split_dot s with
  | [a; b; c; d] =>
      match parse_octet a, parse_octet b, parse_octet c, parse_octet d with
      | Some x, Some y, Some z, Some w =>
          Some (x * 2 ^ 24 + y * 2 ^ 16 + z * 2 ^ 8 + w)%N
      | _, _, _, _ => None
      end
  | _ => None
  end.

(** Field selection. [foldName] (fold.go) maps each ASCII byte to upper
    case and each other rune [r] to [unicode.ToUpper(unicode.ToLower(r))].
    For a non-ASCII rune this is an ASCII letter only for U+0130 and U+0131
    (I), U+017F (S) and U+212A (K); [fold_rune_ascii] gives it for those and
    [None] for the others. *)
Definition ascii_upper (c : ascii) : ascii :=
  let n := N_of_ascii c in
  if (97 <=? n)%N && (n <=? 122)%N then ascii_of_N (n - 32) else c.

Fixpoint upper (s : string) : string :=
  match s with
  | EmptyString => EmptyString
  | String c s' => String (ascii_upper c) (upper s')
  end.

Definition fold_rune_ascii (r : N) : option ascii :=
  if (r =? 304)%N || (r =? 305)%N then Some "I"%char
  else if (r =? 383)%N then Some "S"%char
  else if (r =? 8490)%N then Some "K"%char
  else None.

(** [foldName] of a key when it is ASCII, [None] when some rune of the key
    folds to a non-ASCII rune. *)
Fixpoint fold_loop (fuel : nat) (s : string) : option string :=
  match s with
  | EmptyString => Some EmptyString
  | String c s' =>
      match fuel with
      | O => None
      | S f =>
          if (N_of_ascii c <? 128)%N then String (ascii_upper c) <$> fold_loop f s'
          else
            let (r, size) := DecodeRune s in
            match fold_rune_ascii r with
            | Some a => String a <$> fold_loop f (string_drop size s)
            | None => None
            end
      end
  end.

Definition foldName (s : string) : option string := fold_loop (String.length s) s.

(** A key selects the field whose tag it equals ([byExactName]) or, failing
    that, whose tag has the same folded name ([byFoldedName]). The tags are
    ASCII, so their folded name is their upper-case form, which a key
    folding to a non-ASCII rune cannot equal. *)
Definition key_matches (field key : string) : bool :=
  String.eqb key field ||
  match foldName key with Some f => String.eqb f (upper field) | None => false end.

Fixpoint fold_opt {A B} (f : A -> B -> option A) (a : A) (l : list B) : option A :=
  match l with
  | [] => Some a
  | b :: l' => match f a b with None => None | Some a' => fold_opt f a' l' end
  end.

Fixpoint map_opt {A B} (f : A -> option B) (l : list A) : option (list B) :=
  match l with
  | [] => Some []
  | a :: l' =>
      match f a, map_opt f l' with
      | Some b, Some bs => Some (b :: bs)
      | _, _ => None
      end
  end.

(** A [null] leaves a string, number or bool as it is. *)
Definition decode_string (v : json) (old : string) : option string :=
  match v with JNull => Some old | JStr s => Some s | _ => None end.

Definition decode_uint32 (v : json) (old : N) : option N :=
  match v with
  | JNull => Some old
  | JNum n => if (n <? 2 ^ 32)%N then Some n else None
  | _ => None
  end.

Definition decode_bool (v : json) (old : bool) : option bool :=
  match v with JNull => Some old | JBool b => Some b | _ => None end.

Definition zero_Port : Port := mkPort 0 "" 0 "".

Definition decode_Port_field (p : Port) (kv : string * json) : option Port :=
  let (k, v) := kv in
  if key_matches "service_port" k then
    (fun n => mkPort n (Protocol p) (BackendPort p) (PortName p)) <$> decode_uint32 v (ServicePort p)
  else if key_matches "protocol" k then
    (fun s => mkPort (ServicePort p) s (BackendPort p) (PortName p)) <$> decode_string v (Protocol p)
  else if key_matches "backend_port" k then
    (fun n => mkPort (ServicePort p) (Protocol p) n (PortName p)) <$> decode_uint32 v (BackendPort p)
  else if key_matches "name" k then
    (fun s => mkPort (ServicePort p) (Protocol p) (BackendPort p) s) <$> decode_string v (PortName p)
  else Some p.

(** A port is decoded into the value already there: fields absent from the
    object keep their values, and [null] leaves it as it is. *)
Definition decode_Port (v : json) (old : Port) : option Port :=
  match v with
  | JNull => Some old
  | JObj kvs => fold_opt decode_Port_field old kvs
  | _ => None
  end.

(** [decodeState.array] on a slice: element [i] of the JSON array is
    decoded into the element at index [i] of the backing array (the
    slice's elements followed by [stale], those an earlier decode left
    beyond its length within its capacity) or, past those, into a zero
    value; the slice is then cut to the array's length, what follows in
    the backing array becoming the new [stale]. An empty array gives a
    fresh empty slice and [null] a nil one. *)
Fixpoint decode_elems {A} (dec : json -> A -> option A) (zero : A) (l : list json)
    (backing : list A) : option (list A) :=
  match l with
  | [] => Some []
  | x :: l' =>
      match dec x (default zero (head backing)) with
      | None => None
      | Some a => cons a <$> decode_elems dec zero l' (tail backing)
      end
  end.

Definition decode_slice {A} (dec : json -> A -> option A) (zero : A) (v : json)
    (cur stale : list A) : option (list A * list A) :=
  match v with
  | JNull => Some ([], [])
  | JArr [] => Some ([], [])
  | JArr l =>
      (fun r => (r, drop (List.length l) (cur ++ stale))) <$> decode_elems dec zero l (cur ++ stale)
  | _ => None
  end.
Arguments decode_slice : simpl never.

Definition decode_address (v : json) : option IP :=
  match v with
  | JNull => Some 0%N
  | JStr s => if String.eqb s "" then Some 0%N else ParseIP s
  | _ => None
  end.

(** Entries of a JSON object are added to the map already there. *)
Definition decode_backends (v : json) (old : gmap string string) : option (gmap string string) :=
  match v with
  | JNull => Some ∅
  | JObj kvs =>
      fold_opt (fun m (kv : string * json) =>
                  (fun s => <[kv.1 := s]> m) <$> decode_string kv.2 "") old kvs
  | _ => None
  end.

Definition zero_GlobalService : GlobalService := mkGlobalService "" [] [] ∅ 0 false.

(** The state of a decode: the record, and the stale elements of the
    backing arrays of its [DNSPrefixes] and [Ports] slices. *)
Definition decode_state : Type := GlobalService * list string * list Port.

Definition decode_GlobalService_field (st : decode_state) (kv : string * json)
    : option decode_state :=
  let '(g, ds, ps) := st in
  let (k, v) := kv in
  if key_matches "name" k then
    (fun s => (mkGlobalService s (DNSPrefixes g) (Ports g) (Backends g) (Address g) (Unregistered g),
               ds, ps))
      <$> decode_string v (Name g)
  else if key_matches "dns_prefixes" k then
    (fun r => (mkGlobalService (Name g) r.1 (Ports g) (Backends g) (Address g) (Unregistered g),
               r.2, ps))
      <$> decode_slice decode_string "" v (DNSPrefixes g) ds
  else if key_matches "ports" k then
    (fun r => (mkGlobalService (Name g) (DNSPrefixes g) r.1 (Backends g) (Address g) (Unregistered g),
               ds, r.2))
      <$> decode_slice decode_Port zero_Port v (Ports g) ps
  else if key_matches "backends" k then
    (fun m => (mkGlobalService (Name g) (DNSPrefixes g) (Ports g) m (Address g) (Unregistered g),
               ds, ps))
      <$> decode_backends v (Backends g)
  else if key_matches "address" k then
    (fun a => (mkGlobalService (Name g) (DNSPrefixes g) (Ports g) (Backends g) a (Unregistered g),
               ds, ps))
      <$> decode_address v
  else if key_matches "unregistered" k then
    (fun b => (mkGlobalService (Name g) (DNSPrefixes g) (Ports g) (Backends g) (Address g) b,
               ds, ps))
      <$> decode_bool v (Unregistered g)
  else Some st.

(** [json.Unmarshal] into a zero value. *)
Definition Unmarshal (v : json) : option GlobalService :=
  match v with
  | JNull => Some zero_GlobalService
  | JObj kvs =>
      (fun st : decode_state => st.1.1)
        <$> fold_opt decode_GlobalService_field (zero_GlobalService, [], []) kvs
  | _ => None
  end.

(** [type Clusters []Cluster] and the JSON form of [Cluster] (its struct
    tags [name] and [address]), read and written like the records above. *)
Definition encode_Cluster (c : Cluster) : json :=
  JObj [("name", JStr (coerce_utf8 (ClusterName c)));
        ("address", JStr (coerce_utf8 (ClusterAddress c)))].

Definition zero_Cluster : Cluster := mkCluster "" "".

Definition decode_Cluster_field (c : Cluster) (kv : string * json) : option Cluster :=
  let (k, v) := kv in
  if key_matches "name" k then
    (fun s => mkCluster s (ClusterAddress c)) <$> decode_string v (ClusterName c)
  else if key_matches "address" k then
    (fun s => mkCluster (ClusterName c) s) <$> decode_string v (ClusterAddress c)
  else Some c.

Definition decode_Cluster (v : json) (old : Cluster) : option Cluster :=
  match v with
  | JNull => Some old
  | JObj kvs => fold_opt decode_Cluster_field old kvs
  | _ => None
  end.

Definition encode_Clusters (cs : list Cluster) : json := JArr (map encode_Cluster cs).

(** [json.Unmarshal] into a nil [Clusters]. *)
Definition decode_Clusters (v : json) : option (list Cluster) :=
  fst <$> decode_slice decode_Cluster zero_Cluster v [] [].

(* ------------------------------------------------------------------ *)
(** ** Kubeconfig paths of the [ui] command ([expand], [k8sClientFor])

    [expand] joins the home directory of the current user to the rest of a
    path starting with [~], through [filepath.Join], which cleans the
    result. [filepath.Clean] is embedded as Go writes it for Unix: its
    [lazybuf] holds the [w] bytes written so far, kept here in reverse
    order, so that [out.w--] drops the head of the list; [r] is the
    remaining input. Go strings are byte strings: a [string] of [ascii]. *)

Definition IsPathSeparator (c : ascii) : bool := Ascii.eqb c "/".

(** The [..] case when [out.w > dotdot]: [out.w--], then back up while
    [out.w > dotdot] and the byte at [out.w] is not a separator. [c] is the
    byte at the new [out.w], [rest] the bytes before it. *)
Fixpoint back_loop (c : ascii) (rest : list ascii) (dotdot : nat) : list ascii :=
  if (dotdot <? List.length rest)%nat && negb (IsPathSeparator c) then
    match rest with
    | [] => []
    | c' :: rest' => back_loop c' rest' dotdot
    end
  else rest.

(** The default case: copy bytes up to the next separator. *)
Fixpoint take_component (s out : list ascii) : list ascii * list ascii :=
  match s with
  | [] => (out, [])
  | c :: s' => if IsPathSeparator c then (out, s) else take_component s' (c :: out)
  end.

(** The [for r < n] loop of [Clean]; each round consumes at least one byte,
    so [n] rounds are enough. *)
Fixpoint clean_loop (fuel : nat) (rooted : bool) (s out : list ascii) (dotdot : nat)
    : list ascii :=
  match fuel with
  | O => out
  | S fuel' =>
  match s with
  | [] => out
  | c :: s' =>
      if IsPathSeparator c then clean_loop fuel' rooted s' out dotdot
      else if Ascii.eqb c "." &&
              match s' with [] => true | c1 :: _ => IsPathSeparator c1 end
      then clean_loop fuel' rooted s' out dotdot
      else if Ascii.eqb c "." &&
              match s' with
              | [] => false
              | c1 :: s'' => Ascii.eqb c1 "." &&
                  match s'' with [] => true | c2 :: _ => IsPathSeparator c2 end
              end
      then
        let s'' := tl s' in
        if (dotdot <? List.length out)%nat then
          clean_loop fuel' rooted s''
            match out with [] => [] | c0 :: rest => back_loop c0 rest dotdot end dotdot
        else if negb rooted then
          let out1 := "."%char :: "."%char ::
                        (if (0 <? List.length out)%nat then "/"%char :: out else out) in
          clean_loop fuel' rooted s'' out1 (List.length out1)
        else clean_loop fuel' rooted s'' out dotdot
      else
        let out1 :=
          if (rooted && negb (List.length out =? 1)%nat) ||
             (negb rooted && negb (List.length out =? 0)%nat)
          then "/"%char :: out else out in
        let (out2, s2) := take_component s out1 in
        clean_loop fuel' rooted s2 out2 dotdot
  end
  end.

(** [filepath.Clean] (no volume names on Unix; [FromSlash] is the identity). *)
Definition Clean (path : string) : string :=
  let p := list_ascii_of_string path in
  match p with
  | [] => "."
  | c :: _ =>
      let rooted := IsPathSeparator c in
      let out := clean_loop (List.length p) rooted p (if rooted then ["/"%char] else [])
                   (if rooted then 1 else 0) in
      string_of_list_ascii (rev (match out with [] => ["."%char] | _ => out end))
  end.

(** [strings.Join]. *)
Fixpoint strings_Join (elem : list string) (sep : string) : string :=
  match elem with
  | [] => ""
  | [e] => e
  | e :: rest => String.append e (String.append sep (strings_Join rest sep))
  end.

(** [filepath.Join] on Unix: the elements from the first non-empty one,
    joined by the separator and cleaned. *)
Fixpoint Join (elem : list string) : string :=
  match elem with
  | [] => ""
  | e :: rest => if String.eqb e "" then Join rest else Clean (strings_Join elem "/")
  end.

(** [user.User] (only [HomeDir] is read); [user.Current()] is an
    [option User], [None] being its error. *)
Record User := mkUser { HomeDir : string }.

Inductive CmdError :=
  | UserLookupFailed
  | ExpandFailed (path : string) (cause : CmdError).

(** [func expand(path string) (string, error)]. *)
Definition expand (current : option User) (path : string) : string * option CmdError :=
  match path with
  | EmptyString => (path, None)
  | String c rest =>
      if negb (Ascii.eqb c "~") then (path, None)
      else match current with
           | None => ("", Some UserLookupFailed)
           | Some usr => (Join [HomeDir usr; rest], None)
           end
  end.

(** The path handling that opens [k8sClientFor]: the default kubeconfig
    path, then [expand], its error wrapped ([errors.Wrapf]) with the path.
    The rest of the function talks to the cluster and is not modelled. *)
Definition k8sClientFor_path (current : option User) (path : string) : CmdError + string :=
  let path := if String.eqb path "" then "~/.kube/config" else path in
  match expand current path with
  | (absPath, None) => inr absPath
  | (_, Some err) => inl (ExpandFailed path err)
  end.

(** Paths made of ordinary components: none empty, [.] or [..], none
    holding a separator; [path_of cs] is [/c1/c2/...]. *)
Definition normal_component (c : string) : bool :=
  negb (String.eqb c "") && negb (String.eqb c ".") && negb (String.eqb c "..") &&
  forallb (fun a => negb (IsPathSeparator a)) (list_ascii_of_string c).

Fixpoint path_of (cs : list string) : string :=
  match cs with
  | [] => ""
  | c :: cs' => String "/" (String.append c (path_of cs'))
  end.

(** What the default case of [Clean] leaves in its buffer after copying one
    ordinary component (rooted path). *)
Definition add_component (out : list ascii) (c : string) : list ascii :=
  rev (list_ascii_of_string c) ++ (if negb (List.length out =? 1)%nat then "/"%char :: out else out).

(* ------------------------------------------------------------------ *)
(** ** Sample states *)

(** A pool of sixteen addresses from 10.0.0.0. *)
Definition pool0 : Pool := mkPool 167772160 16 ∅.

Definition http_port (servicePort backendPort : N) : Port :=
  mkPort servicePort "HTTP" backendPort "http".

(** Service [svc] with port http:80 contributed from cluster A. *)
Definition reg_A : Registry :=
  snd (Contribute "svc" "A" [http_port 80 8080] "10.1.0.1" ["svc.ns1"] (empty_registry pool0)).

(** The same service after cluster A withdrew: unregistered, no backends,
    its port set still holding http:80. *)
Definition reg_A_gone : Registry := snd (Withdraw "svc" "A" reg_A).

(** Service [svc] added through the handler of cluster A. *)
Definition reg_h : Registry :=
  snd (HandleEvent "A" Added "svc" [http_port 80 8080] "10.1.0.1" ["svc.ns1"]
         (empty_registry pool0)).

(* ------------------------------------------------------------------ *)
(** * Properties *)

(** ** Order of strings *)

Lemma ascii_compare_trans (a b c : ascii) :
  Ascii.compare a b = Lt -> Ascii.compare b c = Lt -> Ascii.compare a c = Lt.
Proof.
  unfold Ascii.compare. rewrite !N.compare_lt_iff. lia.
Qed.

Lemma ascii_compare_refl (a : ascii) : Ascii.compare a a = Eq.
Proof. unfold Ascii.compare. apply N.compare_refl. Qed.

Lemma string_compare_refl (s : string) : String.compare s s = Eq.
Proof. induction s; simpl; [done|]. by rewrite ascii_compare_refl. Qed.

Lemma string_compare_trans (a b c : string) :
  String.compare a b = Lt -> String.compare b c = Lt -> String.compare a c = Lt.
Proof.
  revert b c. induction a as [|x a IH]; intros [|y b] [|z c]; simpl;
    try done.
  destruct (Ascii.compare x y) eqn:Hxy; try done;
  destruct (Ascii.compare y z) eqn:Hyz; try done.
  - apply Ascii.compare_eq_iff in Hxy, Hyz. subst. rewrite ascii_compare_refl.
    apply IH.
  - apply Ascii.compare_eq_iff in Hxy. subst. by rewrite Hyz.
  - apply Ascii.compare_eq_iff in Hyz. subst. by rewrite Hxy.
  - by rewrite (ascii_compare_trans _ _ _ Hxy Hyz).
Qed.


Lemma str_lt_irrefl (a : string) : ~ str_lt a a.
Proof. unfold str_lt. by rewrite string_compare_refl. Qed.

Lemma str_lt_trans (a b c : string) : str_lt a b -> str_lt b c -> str_lt a c.
Proof. apply string_compare_trans. Qed.

Lemma str_compare_Gt (a b : string) : String.compare a b = Gt -> str_lt b a.
Proof. unfold str_lt. intros H. by rewrite String.compare_antisym, H. Qed.

(** ** The DNS prefix set *)

Lemma insert_sorted_In (x y : string) (l : list string) :
  In y (insert_sorted x l) <-> x = y \/ In y l.
Proof.
  induction l as [|z l IH]; simpl; [tauto|].
  destruct (String.compare x z) eqn:Hc; simpl.
  - apply String.compare_eq_iff in Hc. subst. tauto.
  - tauto.
  - rewrite IH. tauto.
Qed.

Lemma insert_sorted_sorted (x : string) (l : list string) :
  StronglySorted str_lt l -> StronglySorted str_lt (insert_sorted x l).
Proof.
  induction l as [|z l IH]; simpl; intros Hs.
  - repeat constructor.
  - inversion Hs as [|? ? Hs' Hall]; subst.
    destruct (String.compare x z) eqn:Hc.
    + exact Hs.
    + constructor; [exact Hs|]. constructor; [exact Hc|].
      eapply Forall_impl; [exact Hall|]. intros w Hw. eapply str_lt_trans; eauto.
    + constructor; [by apply IH|].
      apply List.Forall_forall. intros w Hw. apply insert_sorted_In in Hw as [->|Hw].
      * by apply str_compare_Gt.
      * by eapply List.Forall_forall in Hall.
Qed.

Lemma insert_sorted_present (x : string) (l : list string) :
  StronglySorted str_lt l -> In x l -> insert_sorted x l = l.
Proof.
  induction l as [|z l IH]; simpl; intros Hs Hin; [done|].
  inversion Hs as [|? ? Hs' Hall]; subst.
  destruct (String.compare x z) eqn:Hc.
  - done.
  - exfalso. destruct Hin as [->|Hin].
    + by apply (str_lt_irrefl x).
    + eapply List.Forall_forall in Hall; [|exact Hin].
      apply (str_lt_irrefl x). eapply str_lt_trans; eauto.
  - destruct Hin as [->|Hin].
    + by rewrite string_compare_refl in Hc.
    + by rewrite IH.
Qed.

Lemma dns_union_sorted (l d : list string) :
  StronglySorted str_lt l -> StronglySorted str_lt (dns_union l d).
Proof.
  unfold dns_union. revert l. induction d as [|x d IH]; intros l Hs; simpl; [done|].
  apply IH. by apply insert_sorted_sorted.
Qed.

Lemma dns_union_In (l d : list string) (y : string) :
  In y (dns_union l d) <-> In y l \/ In y d.
Proof.
  unfold dns_union. revert l. induction d as [|x d IH]; intros l; simpl; [tauto|].
  rewrite IH, insert_sorted_In. tauto.
Qed.

Lemma dns_union_absorb (l d : list string) :
  StronglySorted str_lt l -> (forall x, In x d -> In x l) -> dns_union l d = l.
Proof.
  unfold dns_union. induction d as [|x d IH]; intros Hs Hd; simpl; [done|].
  rewrite insert_sorted_present; [| done | apply Hd; by left].
  apply IH; [done|]. intros y Hy. apply Hd. by right.
Qed.

Lemma dns_union_idem (l d : list string) :
  StronglySorted str_lt l -> dns_union (dns_union l d) d = dns_union l d.
Proof.
  intros Hs. apply dns_union_absorb; [by apply dns_union_sorted|].
  intros x Hx. apply dns_union_In. by right.
Qed.

(** Two strictly sorted lists with the same elements are the same list. *)
Lemma sorted_unique (l1 l2 : list string) :
  StronglySorted str_lt l1 -> StronglySorted str_lt l2 ->
  (forall x, In x l1 <-> In x l2) -> l1 = l2.
Proof.
  revert l2. induction l1 as [|a l1 IH]; intros [|b l2] H1 H2 Heq.
  - done.
  - exfalso. apply (Heq b). by left.
  - exfalso. apply (Heq a). by left.
  - inversion H1 as [|? ? H1' Hall1]; subst.
    inversion H2 as [|? ? H2' Hall2]; subst.
    assert (a = b) as <-.
    { destruct (Heq a) as [Ha _]. destruct (Ha (or_introl eq_refl)) as [|Ha']; [done|].
      destruct (Heq b) as [_ Hb]. destruct (Hb (or_introl eq_refl)) as [|Hb']; [done|].
      eapply List.Forall_forall in Ha'; [|exact Hall2].
      eapply List.Forall_forall in Hb'; [|exact Hall1].
      exfalso. apply (str_lt_irrefl a). eapply str_lt_trans; eauto. }
    f_equal. apply IH; [done|done|]. intros x. split; intros Hx.
    + destruct (proj1 (Heq x) (or_intror Hx)) as [<-|]; [|done].
      eapply List.Forall_forall in Hx; [|exact Hall1]. by apply str_lt_irrefl in Hx.
    + destruct (proj2 (Heq x) (or_intror Hx)) as [<-|]; [|done].
      eapply List.Forall_forall in Hx; [|exact Hall2]. by apply str_lt_irrefl in Hx.
Qed.

(** ** The port merge *)

Lemma merge_ports_fold (m m' : gmap string Port) (ps : list Port) :
  merge_ports m ps = Some m' ->
  m' = foldl (fun acc p => <[PortName p := p]> acc) m ps.
Proof.
  revert m. induction ps as [|p ps IH]; intros m; simpl; [by intros [= ->]|].
  unfold merge_port. destruct (m !! PortName p); [case_decide|]; try done; apply IH.
Qed.

(** A port name already present keeps its [ServicePort] and [Protocol]. *)
Lemma merge_ports_keys (m m' : gmap string Port) (ps : list Port) :
  merge_ports m ps = Some m' ->
  forall k q, m !! k = Some q ->
  exists q', m' !! k = Some q' /\ ServicePort q' = ServicePort q /\ Protocol q' = Protocol q.
Proof.
  revert m. induction ps as [|p ps IH]; intros m Hm k q Hk; simpl in Hm.
  - injection Hm as <-. eauto.
  - destruct (merge_port m p) as [m1|] eqn:H1; [|done].
    assert (exists q1, m1 !! k = Some q1 /\ ServicePort q1 = ServicePort q /\
                       Protocol q1 = Protocol q) as (q1 & Hq1 & Hs1 & Hp1).
    { unfold merge_port in H1.
      destruct (decide (PortName p = k)) as [<-|Hne].
      - rewrite Hk in H1. case_decide as Hd; [|done]. injection H1 as <-.
        exists p. rewrite lookup_insert_eq. destruct Hd. auto.
      - exists q. destruct (m !! PortName p); [case_decide|]; try done;
          injection H1 as <-; rewrite lookup_insert_ne; auto. }
    destruct (IH m1 Hm k q1 Hq1) as (q' & ? & ? & ?). exists q'. split; [done|].
    split; congruence.
Qed.

(** After a successful merge every merged port is present under its name
    with its [ServicePort] and [Protocol]. *)
Lemma merge_ports_in (m m' : gmap string Port) (ps : list Port) :
  merge_ports m ps = Some m' ->
  forall p, In p ps ->
  exists q, m' !! PortName p = Some q /\ ServicePort q = ServicePort p /\ Protocol q = Protocol p.
Proof.
  revert m. induction ps as [|p0 ps IH]; intros m Hm p Hp; [done|]. simpl in Hm.
  destruct (merge_port m p0) as [m1|] eqn:H1; [|done].
  destruct Hp as [<-|Hp]; [|by eapply IH].
  assert (m1 !! PortName p0 = Some p0) as Hm1.
  { unfold merge_port in H1. destruct (m !! PortName p0); [case_decide|]; try done;
      injection H1 as <-; apply lookup_insert_eq. }
  by destruct (merge_ports_keys _ _ _ Hm _ _ Hm1) as (q & ? & ? & ?); exists q.
Qed.

Lemma merge_ports_conflict (m : gmap string Port) (ps : list Port) (p q : Port) :
  In p ps -> m !! PortName p = Some q ->
  (ServicePort q <> ServicePort p \/ Protocol q <> Protocol p) ->
  merge_ports m ps = None.
Proof.
  intros Hp Hq Hd. destruct (merge_ports m ps) as [m'|] eqn:Hm; [|done]. exfalso.
  destruct (merge_ports_keys _ _ _ Hm _ _ Hq) as (q1 & H1 & ? & ?).
  destruct (merge_ports_in _ _ _ Hm _ Hp) as (q2 & H2 & ? & ?).
  rewrite H1 in H2. injection H2 as <-. destruct Hd; congruence.
Qed.

Lemma merge_ports_compat (X : gmap string Port) (ps : list Port) :
  (forall p, In p ps -> exists q, X !! PortName p = Some q /\
     ServicePort q = ServicePort p /\ Protocol q = Protocol p) ->
  merge_ports X ps = Some (foldl (fun acc p => <[PortName p := p]> acc) X ps).
Proof.
  revert X. induction ps as [|p0 ps IH]; intros X HX; simpl; [done|].
  destruct (HX p0 (or_introl eq_refl)) as (q0 & Hq0 & Hs0 & Hp0).
  unfold merge_port. rewrite Hq0. rewrite decide_True by auto.
  apply IH. intros p Hp. destruct (HX p (or_intror Hp)) as (q & Hq & Hs & Hpr).
  destruct (decide (PortName p0 = PortName p)) as [Heq|Hne].
  - exists p0. rewrite Heq, lookup_insert_eq. rewrite Heq, Hq in Hq0.
    injection Hq0 as <-. split; [done|]. split; congruence.
  - exists q. by rewrite lookup_insert_ne.
Qed.

Lemma foldl_insert_union (ps : list Port) (Z Y : gmap string Port) :
  foldl (fun acc p => <[PortName p := p]> acc) (Z ∪ Y) ps =
  foldl (fun acc p => <[PortName p := p]> acc) Z ps ∪ Y.
Proof.
  revert Z. induction ps as [|p ps IH]; intros Z; simpl; [done|].
  by rewrite insert_union_l, IH.
Qed.

Lemma foldl_insert_idem (ps : list Port) (m : gmap string Port) :
  foldl (fun acc p => <[PortName p := p]> acc)
    (foldl (fun acc p => <[PortName p := p]> acc) m ps) ps =
  foldl (fun acc p => <[PortName p := p]> acc) m ps.
Proof.
  assert (forall Y : gmap string Port,
            foldl (fun acc p => <[PortName p := p]> acc) Y ps =
            foldl (fun acc p => <[PortName p := p]> acc) ∅ ps ∪ Y) as HY.
  { intros Y. rewrite <- (left_id_L ∅ (∪) Y) at 1. apply foldl_insert_union. }
  set (A := foldl (fun acc p => <[PortName p := p]> acc) ∅ ps) in HY.
  rewrite (HY m), (HY (A ∪ m)). by rewrite (assoc_L (∪)), (idemp_L (∪)).
Qed.

Lemma merge_ports_idem (m m' : gmap string Port) (ps : list Port) :
  merge_ports m ps = Some m' -> merge_ports m' ps = Some m'.
Proof.
  intros Hm. rewrite (merge_ports_compat m' ps).
  - rewrite (merge_ports_fold _ _ _ Hm). by rewrite foldl_insert_idem.
  - by apply (merge_ports_in m).
Qed.

(** ** Invariants of the stored entries *)

Lemma Contribute_preserves (P : Entry -> Prop) s c ps a d (r : Registry) :
  (forall x, P (new_entry x)) ->
  (forall e e', P e -> contribute_entry c ps a d e = Some e' -> P e') ->
  (forall k e, services r !! k = Some e -> P e) ->
  forall k e, services (snd (Contribute s c ps a d r)) !! k = Some e -> P e.
Proof.
  intros Hnew Hce Hr k e. unfold Contribute.
  destruct (services r !! s) as [e0|] eqn:Hs.
  - destruct (contribute_entry c ps a d e0) as [e1|] eqn:H1; simpl; [|apply Hr].
    rewrite lookup_insert. case_decide; [intros [= <-]; eauto | apply Hr].
  - destruct (Allocate (pool r)) as [[x p']|]; simpl; [|apply Hr].
    destruct (contribute_entry c ps a d (new_entry x)) as [e1|] eqn:H1; simpl; [|apply Hr].
    rewrite lookup_insert. case_decide; [intros [= <-]; eauto | apply Hr].
Qed.

Lemma Withdraw_preserves (P : Entry -> Prop) s c (r : Registry) :
  (forall e v, P e -> e_backends e !! c = Some v -> P (withdraw_entry c e)) ->
  (forall k e, services r !! k = Some e -> P e) ->
  forall k e, services (snd (Withdraw s c r)) !! k = Some e -> P e.
Proof.
  intros Hw Hr k e. unfold Withdraw.
  destruct (services r !! s) as [e0|] eqn:Hs; simpl; [|apply Hr].
  destruct (e_backends e0 !! c) as [v|] eqn:Hv; simpl; [|apply Hr].
  rewrite lookup_insert. case_decide; [intros [= <-]; eauto | apply Hr].
Qed.

Lemma Delete_preserves (P : Entry -> Prop) s (r : Registry) :
  (forall k e, services r !! k = Some e -> P e) ->
  forall k e, services (snd (Delete s r)) !! k = Some e -> P e.
Proof.
  intros Hr k e. unfold Delete.
  destruct (services r !! s) as [e0|]; simpl; [|apply Hr].
  destruct (e_unregistered e0); simpl; [|apply Hr].
  rewrite lookup_delete. case_decide; [done | apply Hr].
Qed.

Lemma reachable_entries (P : Entry -> Prop) :
  (forall x, P (new_entry x)) ->
  (forall c ps a d e e', P e -> contribute_entry c ps a d e = Some e' -> P e') ->
  (forall c e v, P e -> e_backends e !! c = Some v -> P (withdraw_entry c e)) ->
  forall r, reachable r -> forall k e, services r !! k = Some e -> P e.
Proof.
  intros Hnew Hce Hw r Hr. induction Hr as [p|o r Hr IH].
  - intros k e. simpl. by rewrite lookup_empty.
  - destruct o; unfold step, exec.
    + apply Contribute_preserves; auto. intros e e' He Hc. exact (Hce _ _ _ _ e e' He Hc).
    + apply Withdraw_preserves; eauto.
    + done.
    + done.
    + by apply Delete_preserves.
Qed.

Lemma contribute_entry_sorted c ps a d (e e' : Entry) :
  StronglySorted str_lt (e_dns e) -> contribute_entry c ps a d e = Some e' ->
  StronglySorted str_lt (e_dns e').
Proof.
  unfold contribute_entry. destruct (merge_ports (e_ports e) ps); [|done].
  intros Hs [= <-]. simpl. by apply dns_union_sorted.
Qed.

Lemma reachable_dns_sorted (r : Registry) :
  reachable r -> forall k e, services r !! k = Some e -> StronglySorted str_lt (e_dns e).
Proof.
  apply reachable_entries.
  - intros x. constructor.
  - intros c ps a d e e'. apply contribute_entry_sorted.
  - intros c e v Hs _. exact Hs.
Qed.

(** ** Contribute *)

Lemma contribute_entry_idem c ps a d (e e' : Entry) :
  StronglySorted str_lt (e_dns e) -> contribute_entry c ps a d e = Some e' ->
  contribute_entry c ps a d e' = Some e'.
Proof.
  unfold contribute_entry. destruct (merge_ports (e_ports e) ps) as [m'|] eqn:Hm; [|done].
  intros Hs [= <-]. simpl. rewrite (merge_ports_idem _ _ _ Hm).
  rewrite dns_union_idem by done. by rewrite insert_insert_eq.
Qed.

Lemma contribute_entry_backends c ps a d (e e' : Entry) :
  contribute_entry c ps a d e = Some e' ->
  e_backends e' = <[c := a]> (e_backends e) /\ e_address e' = e_address e /\
  e_unregistered e' = false /\ e_dns e' = dns_union (e_dns e) d /\
  merge_ports (e_ports e) ps = Some (e_ports e').
Proof.
  unfold contribute_entry. destruct (merge_ports (e_ports e) ps); [|done].
  by intros [= <-].
Qed.

(** ** Allocation and successful contributions *)

Lemma first_free_not_in (b : N) (i fuel : nat) (used : gset N) (x : N) :
  first_free b i fuel used = Some x -> x ∉ used.
Proof.
  revert i. induction fuel as [|f IH]; intros i; simpl; [done|].
  case_decide as Hd; [apply IH|]. by intros [= <-].
Qed.

Lemma Allocate_spec (p p' : Pool) (x : IP) :
  Allocate p = Some (x, p') ->
  (x ∉ in_use p) /\ in_use p' = {[x]} ∪ in_use p /\ base p' = base p /\ size p' = size p.
Proof.
  unfold Allocate. destruct (first_free (base p) 0 (size p) (in_use p)) as [a|] eqn:Hf;
    [|done].
  intros [= <- <-]. simpl. split; [|done]. by eapply first_free_not_in.
Qed.

Lemma Contribute_absent_ok (r r' : Registry) s c ps a d :
  services r !! s = None -> Contribute s c ps a d r = (None, r') ->
  exists x p' e', Allocate (pool r) = Some (x, p') /\
    contribute_entry c ps a d (new_entry x) = Some e' /\
    r' = mkRegistry (<[s := e']> (services r)) p'.
Proof.
  intros Hs. unfold Contribute. rewrite Hs.
  destruct (Allocate (pool r)) as [[x p']|]; [|done].
  destruct (contribute_entry c ps a d (new_entry x)) as [e'|] eqn:He; [|done].
  intros H. injection H as <-. by exists x, p', e'.
Qed.

Lemma Contribute_present_ok (r r' : Registry) s c ps a d (e : Entry) :
  services r !! s = Some e -> Contribute s c ps a d r = (None, r') ->
  exists e', contribute_entry c ps a d e = Some e' /\
    r' = mkRegistry (<[s := e']> (services r)) (pool r).
Proof.
  intros Hs. unfold Contribute. rewrite Hs.
  destruct (contribute_entry c ps a d e) as [e'|] eqn:He; [|done].
  intros H. injection H as <-. by exists e'.
Qed.

(** Two successful contributions from different clusters to a service that
    did not exist. *)
Lemma two_contributions (r : Registry) (s X Y : string) (psX psY : list Port)
    (aX aY : string) (dX dY : list string) :
  X <> Y -> services r !! s = None ->
  fst (run [OpContribute s X psX aX dX; OpContribute s Y psY aY dY] r) = [None; None] ->
  exists e x,
    services (snd (run [OpContribute s X psX aX dX; OpContribute s Y psY aY dY] r)) !! s = Some e /\
    e_backends e !! X = Some aX /\ e_backends e !! Y = Some aY /\
    e_address e = x /\ (x ∉ in_use (pool r)) /\
    in_use (pool (snd (run [OpContribute s X psX aX dX; OpContribute s Y psY aY dY] r))) =
      {[x]} ∪ in_use (pool r).
Proof.
  intros Hxy Hs. cbn [run exec].
  destruct (Contribute s X psX aX dX r) as [err1 r1] eqn:H1.
  destruct (Contribute s Y psY aY dY r1) as [err2 r2] eqn:H2.
  simpl. intros [= -> ->].
  apply Contribute_absent_ok in H1 as (x & p' & e1 & Ha & He1 & ->); [|done].
  apply (Contribute_present_ok _ _ _ _ _ _ _ e1) in H2 as (e2 & He2 & ->);
    [|simpl; apply lookup_insert_eq].
  apply contribute_entry_backends in He1 as (Hb1 & Hx1 & _).
  apply contribute_entry_backends in He2 as (Hb2 & Hx2 & _).
  apply Allocate_spec in Ha as (Hn & Hu & _).
  exists e2, x. simpl. rewrite lookup_insert_eq.
  split; [done|]. rewrite Hb2, Hb1.
  split; [rewrite lookup_insert_ne by congruence; apply lookup_insert_eq|].
  split; [apply lookup_insert_eq|].
  split; [rewrite Hx2, Hx1; done|]. done.
Qed.

(** ** Delete and the pool *)

Lemma first_free_lowest (b : N) (i fuel k : nat) (used : gset N) :
  (forall j, (i <= j < i + k)%nat -> (b + N.of_nat j)%N ∈ used) ->
  (k < fuel)%nat -> (b + N.of_nat (i + k))%N ∉ used ->
  first_free b i fuel used = Some (b + N.of_nat (i + k))%N.
Proof.
  revert i fuel. induction k as [|k IH]; intros i fuel Hlow Hk Hfree;
    destruct fuel as [|f]; try lia; simpl.
  - rewrite Nat.add_0_r in Hfree |- *. by rewrite decide_False.
  - rewrite decide_True by (apply Hlow; lia).
    replace (i + S k)%nat with (S i + k)%nat in * by lia.
    apply IH; [|lia|done]. intros j Hj. apply Hlow. lia.
Qed.

Lemma Allocate_lowest (p : Pool) (a : IP) :
  (base p <= a < base p + N.of_nat (size p))%N -> a ∉ in_use p ->
  (forall b, (base p <= b < a)%N -> b ∈ in_use p) ->
  exists p', Allocate p = Some (a, p').
Proof.
  intros Hr Hn Hlow. unfold Allocate.
  rewrite (first_free_lowest _ 0 _ (N.to_nat (a - base p))).
  - replace (base p + N.of_nat (0 + N.to_nat (a - base p)))%N with a by lia. eauto.
  - intros j Hj. apply Hlow. lia.
  - lia.
  - by replace (base p + N.of_nat (0 + N.to_nat (a - base p)))%N with a by lia.
Qed.

(** ** Boundary validation *)

Lemma merge_ports_from (m m' : gmap string Port) (ps : list Port) :
  merge_ports m ps = Some m' ->
  forall k p, m' !! k = Some p -> m !! k = Some p \/ In p ps.
Proof.
  revert m. induction ps as [|p0 ps IH]; intros m Hm k p Hk; simpl in Hm.
  - injection Hm as <-. by left.
  - destruct (merge_port m p0) as [m1|] eqn:H1; [|done].
    assert (m1 = <[PortName p0 := p0]> m) as ->.
    { unfold merge_port in H1. destruct (m !! PortName p0); [case_decide|]; congruence. }
    destruct (IH _ Hm k p Hk) as [Hk1|Hin]; [|by right; right].
    rewrite lookup_insert in Hk1. case_decide.
    + injection Hk1 as <-. right. by left.
    + by left.
Qed.

Lemma HandleEvent_Removed_state c s ps a d (r : Registry) :
  snd (HandleEvent c Removed s ps a d r) = snd (Withdraw s c r).
Proof.
  unfold HandleEvent. by destruct (Withdraw s c r) as [[[]|] r'].
Qed.

Lemma handled_reachable_protocols (r : Registry) :
  handled_reachable r -> forall k e, services r !! k = Some e ->
  forall n p, e_ports e !! n = Some p -> valid_protocol (Protocol p) = true.
Proof.
  induction 1 as [p0|c k s ps a d r Hr IH|s r Hr IH|r Hr IH|s r Hr IH].
  - intros k e. simpl. by rewrite lookup_empty.
  - destruct k.
    1, 2: unfold HandleEvent; destruct (validate s ps) eqn:Hv; [|exact IH];
      apply (Contribute_preserves (fun e => forall n p, e_ports e !! n = Some p ->
                                     valid_protocol (Protocol p) = true));
        [intros x n p; simpl; by rewrite lookup_empty| |exact IH];
      intros e e' He Hc n p Hp;
      apply contribute_entry_backends in Hc as (_ & _ & _ & _ & Hm);
      destruct (merge_ports_from _ _ _ Hm n p Hp) as [Hold|Hin]; [by eapply He|];
      apply andb_prop in Hv as [_ Hv]; apply forallb_forall with (x := p) in Hv; done.
    + rewrite HandleEvent_Removed_state.
      apply (Withdraw_preserves (fun e => forall n p, e_ports e !! n = Some p ->
                                   valid_protocol (Protocol p) = true)); [|exact IH].
      intros e v He _. exact He.
  - exact IH.
  - exact IH.
  - unfold step, exec.
    apply (Delete_preserves (fun e => forall n p, e_ports e !! n = Some p ->
                               valid_protocol (Protocol p) = true)). exact IH.
Qed.

(** ** JSON form *)

Lemma split_dot_nodot_app (o s : string) :
  forallb (fun c => negb (Ascii.eqb c ".")) (list_ascii_of_string o) = true ->
  split_dot (String.append o (String "." s)) = o :: split_dot s.
Proof.
  induction o as [|c o IH]; simpl; [done|].
  intros [Hc Ho]%andb_prop. apply negb_true_iff in Hc. rewrite Hc, IH by done. done.
Qed.

Lemma split_dot_nodot (o : string) :
  forallb (fun c => negb (Ascii.eqb c ".")) (list_ascii_of_string o) = true ->
  split_dot o = [o].
Proof.
  induction o as [|c o IH]; simpl; [done|].
  intros [Hc Ho]%andb_prop. apply negb_true_iff in Hc. rewrite Hc, IH by done. done.
Qed.

Lemma octets_ok :
  forallb (fun i =>
    forallb (fun c => negb (Ascii.eqb c ".")) (list_ascii_of_string (octet_string (N.of_nat i))) &&
    bool_decide (parse_octet (octet_string (N.of_nat i)) = Some (N.of_nat i)))
    (seq 0 256) = true.
Proof. vm_compute. reflexivity. Qed.

Lemma octet_string_ok (n : N) :
  (n < 256)%N ->
  forallb (fun c => negb (Ascii.eqb c ".")) (list_ascii_of_string (octet_string n)) = true /\
  parse_octet (octet_string n) = Some n.
Proof.
  intros Hn. pose proof octets_ok as H. rewrite forallb_forall in H.
  specialize (H (N.to_nat n)). rewrite N2Nat.id in H.
  destruct (andb_prop _ _ (H ltac:(apply in_seq; lia))) as [H1 H2].
  split; [exact H1|]. by apply bool_decide_eq_true in H2.
Qed.

Lemma ParseIP_ip_string (a : IP) : is_Some (ParseIP (ip_string a)).
Proof.
  destruct (octet_string_ok (a / 2 ^ 24 mod 256)) as [N1 P1]; [apply N.mod_lt; lia|].
  destruct (octet_string_ok (a / 2 ^ 16 mod 256)) as [N2 P2]; [apply N.mod_lt; lia|].
  destruct (octet_string_ok (a / 2 ^ 8 mod 256)) as [N3 P3]; [apply N.mod_lt; lia|].
  destruct (octet_string_ok (a mod 256)) as [N4 P4]; [apply N.mod_lt; lia|].
  unfold ParseIP, ip_string.
  rewrite (split_dot_nodot_app _ _ N1), (split_dot_nodot_app _ _ N2),
    (split_dot_nodot_app _ _ N3), (split_dot_nodot _ N4).
  rewrite P1, P2, P3, P4. eauto.
Qed.

Lemma append_cons (c : ascii) (a b : string) :
  String.append (String c a) b = String c (String.append a b).
Proof. reflexivity. Qed.

Lemma take_drop_string (n : nat) (s : string) :
  String.append (string_take n s) (string_drop n s) = s.
Proof.
  revert s. induction n as [|n IH]; intros [|c s]; try reflexivity.
  cbn [string_take string_drop]. rewrite append_cons, IH. reflexivity.
Qed.

Lemma valid_loop_coerce (f : nat) (s : string) :
  valid_loop f s = true -> coerce_loop f s = s.
Proof.
  revert s. induction f as [|f IH]; intros [|c s]; cbn [valid_loop coerce_loop]; try done.
  destruct (N_of_ascii c <? 128)%N.
  - intros H. by rewrite IH.
  - destruct (DecodeRune (String c s)) as [r size].
    destruct ((r =? RuneError)%N && (size =? 1)%nat); [done|].
    intros H. rewrite IH by done. apply take_drop_string.
Qed.

(** Valid UTF-8 is written as it is. *)
Lemma coerce_valid (s : string) : ValidString s = true -> coerce_utf8 s = s.
Proof. apply valid_loop_coerce. Qed.

Lemma map_coerce_valid (l : list string) :
  Forall (fun s => ValidString s = true) l ->
  map (fun s => JStr (coerce_utf8 s)) l = map JStr l.
Proof. induction 1 as [|s l Hs _ IH]; simpl; [done|]. by rewrite coerce_valid, IH. Qed.

Lemma map_coerce_pairs (l : list (string * string)) :
  Forall (fun kv => ValidString kv.1 = true /\ ValidString kv.2 = true) l ->
  map (fun kv => (coerce_utf8 kv.1, JStr (coerce_utf8 kv.2))) l = map (fun kv => (kv.1, JStr kv.2)) l.
Proof.
  induction 1 as [|kv l [H1 H2] _ IH]; simpl; [done|]. by rewrite !coerce_valid, IH.
Qed.

Lemma decode_Port_encode (p old : Port) :
  (ServicePort p < 2 ^ 32)%N -> (BackendPort p < 2 ^ 32)%N ->
  ValidString (Protocol p) = true -> ValidString (PortName p) = true ->
  decode_Port (encode_Port p) old = Some p.
Proof.
  intros Hs Hb Hv1 Hv2. destruct p as [sp pr bp nm]. simpl in *.
  unfold decode_Port, encode_Port. cbn [Protocol PortName]. rewrite !coerce_valid by done.
  simpl. unfold decode_uint32. rewrite (proj2 (N.ltb_lt _ _) Hs). simpl.
  rewrite (proj2 (N.ltb_lt _ _) Hb). done.
Qed.

Lemma decode_Port_encode_some (p old : Port) :
  (ServicePort p < 2 ^ 32)%N -> (BackendPort p < 2 ^ 32)%N ->
  is_Some (decode_Port (encode_Port p) old).
Proof.
  intros Hs Hb. destruct p as [sp pr bp nm]. simpl in *.
  unfold decode_Port, encode_Port. simpl.
  unfold decode_uint32. rewrite (proj2 (N.ltb_lt _ _) Hs). simpl.
  rewrite (proj2 (N.ltb_lt _ _) Hb). eauto.
Qed.

Lemma decode_elems_map {A} (dec : json -> A -> option A) (zero : A) (enc : A -> json)
    (l backing : list A) :
  Forall (fun x => forall old, dec (enc x) old = Some x) l ->
  decode_elems dec zero (map enc l) backing = Some l.
Proof.
  intros Hl. revert backing.
  induction Hl as [|x l Hx _ IH]; intros backing; simpl; [done|].
  by rewrite Hx, IH.
Qed.

Lemma decode_slice_map {A} (dec : json -> A -> option A) (zero : A) (enc : A -> json)
    (l cur stale : list A) :
  Forall (fun x => forall old, dec (enc x) old = Some x) l ->
  exists st, decode_slice dec zero (JArr (map enc l)) cur stale = Some (l, st).
Proof.
  intros Hl. destruct l as [|x l']; [by exists []|].
  pose proof (decode_elems_map dec zero enc (x :: l') (cur ++ stale) Hl) as H.
  cbn [map] in H |- *. unfold decode_slice. rewrite H. eauto.
Qed.

Lemma decode_elems_some {A} (dec : json -> A -> option A) (zero : A) (l : list json)
    (backing : list A) :
  Forall (fun x => forall old, is_Some (dec x old)) l ->
  is_Some (decode_elems dec zero l backing).
Proof.
  intros Hl. revert backing.
  induction Hl as [|x l Hx _ IH]; intros backing; simpl; [eauto|].
  destruct (Hx (default zero (head backing))) as [a ->].
  destruct (IH (tail backing)) as [r ->]. eauto.
Qed.

Lemma decode_slice_some {A} (dec : json -> A -> option A) (zero : A) (l : list json)
    (cur stale : list A) :
  Forall (fun x => forall old, is_Some (dec x old)) l ->
  is_Some (decode_slice dec zero (JArr l) cur stale).
Proof.
  intros Hl. destruct l as [|x l']; [simpl; eauto|].
  destruct (decode_elems_some dec zero (x :: l') (cur ++ stale) Hl) as [r Hr].
  unfold decode_slice. rewrite Hr. eauto.
Qed.

Lemma decode_backends_encode (l : list (string * string)) (m : gmap string string) :
  is_Some (decode_backends (JObj (map (fun kv => (coerce_utf8 kv.1, JStr (coerce_utf8 kv.2))) l)) m).
Proof.
  unfold decode_backends. revert m.
  induction l as [|[k v] l IH]; intros m; simpl; [eauto|]. apply IH.
Qed.

(** Decoding fields other than [unregistered] leaves the flag alone. *)
Lemma decode_field_flag (st st' : decode_state) (kv : string * json) :
  decode_GlobalService_field st kv = Some st' -> key_matches "unregistered" kv.1 = false ->
  Unregistered st'.1.1 = Unregistered st.1.1.
Proof.
  destruct st as [[g ds] ps], kv as [k v]. unfold decode_GlobalService_field. simpl. intros Hd Hk.
  rewrite Hk in Hd.
  repeat match type of Hd with
         | context [if ?b then _ else _] => destruct b
         end;
    try (apply fmap_Some in Hd as (? & _ & ->)); try (injection Hd as <-); done.
Qed.

Lemma fold_decode_flag (st st' : decode_state) (kvs : list (string * json)) :
  fold_opt decode_GlobalService_field st kvs = Some st' ->
  (forall k, In k kvs.*1 -> key_matches "unregistered" k = false) ->
  Unregistered st'.1.1 = Unregistered st.1.1.
Proof.
  revert st. induction kvs as [|kv kvs IH]; intros st; simpl; [by intros [= ->]|].
  destruct (decode_GlobalService_field st kv) as [st1|] eqn:H1; [|done].
  intros Hf Hk. rewrite (IH st1 Hf).
  - apply (decode_field_flag _ _ kv H1). apply Hk. by left.
  - intros k Hin. apply Hk. by right.
Qed.

Lemma ip_string_nonempty (a : IP) : String.eqb (ip_string a) "" = false.
Proof.
  unfold ip_string, octet_string.
  destruct (a / 2 ^ 24 mod 256 <? 10)%N; [done|].
  by destruct (a / 2 ^ 24 mod 256 <? 100)%N.
Qed.

(** ** JSON round trips *)

Lemma ip_recombine (a : N) :
  (a < 2 ^ 32)%N ->
  (a / 2 ^ 24 mod 256 * 2 ^ 24 + a / 2 ^ 16 mod 256 * 2 ^ 16 + a / 2 ^ 8 mod 256 * 2 ^ 8 + a mod 256)%N = a.
Proof.
  intros H.
  assert (E24 : (a / 2 ^ 24 = a / 256 / 256 / 256)%N).
  { rewrite !N.Div0.div_div. reflexivity. }
  assert (E16 : (a / 2 ^ 16 = a / 256 / 256)%N).
  { rewrite !N.Div0.div_div. reflexivity. }
  rewrite E24, E16.
  change (2 ^ 8)%N with 256%N. change (2 ^ 16)%N with 65536%N. change (2 ^ 24)%N with 16777216%N.
  change (2 ^ 32)%N with 4294967296%N in H.
  set (q1 := (a / 256)%N). set (q2 := (q1 / 256)%N). set (q3 := (q2 / 256)%N).
  pose proof (N.div_mod a 256 ltac:(lia)) as D0.
  pose proof (N.div_mod q1 256 ltac:(lia)) as D1.
  pose proof (N.div_mod q2 256 ltac:(lia)) as D2.
  pose proof (N.mod_lt a 256 ltac:(lia)).
  pose proof (N.mod_lt q1 256 ltac:(lia)).
  pose proof (N.mod_lt q2 256 ltac:(lia)).
  fold q1 in D0. fold q2 in D1. fold q3 in D2.
  set (r0 := (a mod 256)%N) in *. set (r1 := (q1 mod 256)%N) in *. set (r2 := (q2 mod 256)%N) in *. clearbody q1 q2 q3 r0 r1 r2. assert (Hq3 : (q3 < 256)%N) by lia.
  rewrite (N.mod_small q3 256 Hq3). lia.
Qed.


Lemma ParseIP_ip_string_eq (a : IP) : (a < 2 ^ 32)%N -> ParseIP (ip_string a) = Some a.
Proof.
  intros Ha.
  destruct (octet_string_ok (a / 2 ^ 24 mod 256)) as [N1 P1]; [apply N.mod_lt; lia|].
  destruct (octet_string_ok (a / 2 ^ 16 mod 256)) as [N2 P2]; [apply N.mod_lt; lia|].
  destruct (octet_string_ok (a / 2 ^ 8 mod 256)) as [N3 P3]; [apply N.mod_lt; lia|].
  destruct (octet_string_ok (a mod 256)) as [N4 P4]; [apply N.mod_lt; lia|].
  unfold ParseIP, ip_string.
  rewrite (split_dot_nodot_app _ _ N1), (split_dot_nodot_app _ _ N2),
    (split_dot_nodot_app _ _ N3), (split_dot_nodot _ N4).
  rewrite P1, P2, P3, P4. by rewrite ip_recombine.
Qed.

Lemma insert_by_key_perm (kv : string * string) (l : list (string * string)) :
  insert_by_key kv l ≡ₚ kv :: l.
Proof.
  induction l as [|kv' l IH]; simpl; [done|].
  destruct (String.compare kv.1 kv'.1); try done.
  rewrite IH. apply perm_swap.
Qed.

Lemma sort_by_key_perm (l : list (string * string)) : sort_by_key l ≡ₚ l.
Proof.
  induction l as [|kv l IH]; simpl; [done|].
  by rewrite insert_by_key_perm, IH.
Qed.



Lemma decode_backends_obj (l : list (string * string)) (m : gmap string string) :
  decode_backends (JObj (map (fun kv => (kv.1, JStr kv.2)) l)) m =
    Some (list_to_map (rev l) ∪ m).
Proof.
  unfold decode_backends. revert m.
  induction l as [|[k v] l IH]; intros m; simpl.
  - by rewrite (left_id_L ∅ (∪) m).
  - rewrite IH. f_equal. rewrite list_to_map_app. simpl.
    rewrite <- map_union_assoc. f_equal. rewrite insert_empty. apply insert_union_singleton_l.
Qed.

Lemma list_to_map_sorted_backends (m : gmap string string) :
  list_to_map (rev (sort_by_key (map_to_list m))) = m.
Proof.
  rewrite <- (list_to_map_to_list m) at 2.
  apply list_to_map_proper.
  - assert (Hp : (rev (sort_by_key (map_to_list m))).*1 ≡ₚ (map_to_list m).*1).
    { apply fmap_Permutation. by rewrite <- Permutation_rev, sort_by_key_perm. }
    rewrite Hp. apply NoDup_fst_map_to_list.
  - by rewrite <- Permutation_rev, sort_by_key_perm.
Qed.

Lemma fold_opt_app {A B} (f : A -> B -> option A) (a : A) (l1 l2 : list B) :
  fold_opt f a (l1 ++ l2) = match fold_opt f a l1 with Some a' => fold_opt f a' l2 | None => None end.
Proof.
  revert a. induction l1 as [|b l1 IH]; intros a; simpl; [done|].
  destruct (f a b); [apply IH|done].
Qed.

Lemma decode_Port_bounds (kvs : list (string * json)) (p p' : Port) :
  (ServicePort p < 2 ^ 32)%N -> (BackendPort p < 2 ^ 32)%N ->
  fold_opt decode_Port_field p kvs = Some p' ->
  (ServicePort p' < 2 ^ 32)%N /\ (BackendPort p' < 2 ^ 32)%N.
Proof.
  revert p. induction kvs as [|[k v] kvs IH]; intros p Hs Hb; cbn [fold_opt]; [by intros [= <-]|].
  destruct (decode_Port_field p (k, v)) as [p1|] eqn:E; [|done].
  apply IH; unfold decode_Port_field in E;
    repeat match type of E with context [if ?b then _ else _] => destruct b end;
    try (injection E as <-; done);
    apply fmap_Some in E as (x & Hx & ->); simpl; try done;
    unfold decode_uint32 in Hx; destruct v; try discriminate Hx;
    try (injection Hx as <-; done);
    destruct (N.ltb_spec n (2 ^ 32)); try discriminate Hx; injection Hx as <-; done.
Qed.

Lemma Forall_sorted_backends (P : string -> string -> Prop) (m : gmap string string) :
  map_Forall P m -> Forall (fun kv => P kv.1 kv.2) (sort_by_key (map_to_list m)).
Proof.
  intros Hm. apply Forall_forall. intros [k v] Hin.
  rewrite sort_by_key_perm in Hin.
  apply Hm. by apply elem_of_map_to_list.
Qed.

Lemma decode_elems_empty_objs (n : nat) (backing : list Port) :
  (n <= List.length backing)%nat ->
  decode_elems decode_Port zero_Port (replicate n (JObj [])) backing = Some (take n backing).
Proof.
  revert backing. induction n as [|n IH]; intros [|p backing] Hn; simpl in *; try done; [lia|].
  rewrite IH by lia. done.
Qed.

Lemma decode_slice_empty_objs (n : nat) (cur stale : list Port) :
  (n <= List.length cur)%nat ->
  exists st, decode_slice decode_Port zero_Port (JArr (replicate n (JObj []))) cur stale =
    Some (take n cur, st).
Proof.
  intros Hn. destruct n as [|n]; [by exists []|].
  pose proof (decode_elems_empty_objs (S n) (cur ++ stale)) as H.
  rewrite length_app in H. rewrite take_app_le in H by lia.
  unfold decode_slice. cbn [replicate] in H |- *. rewrite H by lia. eauto.
Qed.

(** ** Cleaning and expanding paths *)

Lemma list_ascii_of_string_append (a b : string) :
  list_ascii_of_string (String.append a b) = list_ascii_of_string a ++ list_ascii_of_string b.
Proof. induction a as [|c a IH]; simpl; [done|]. by rewrite IH. Qed.

Lemma take_component_nosep (cl s out : list ascii) :
  Forall (fun a => IsPathSeparator a = false) cl ->
  (match s with [] => True | c :: _ => IsPathSeparator c = true end) ->
  take_component (cl ++ s) out = (rev cl ++ out, s).
Proof.
  intros Hcl Hs. revert out. induction Hcl as [|x cl Hx _ IH]; intros out; simpl.
  - destruct s as [|c s]; [done|]. simpl. by rewrite Hs.
  - rewrite Hx, IH. by rewrite <- app_assoc.
Qed.

Lemma take_component_suffix (s out o s' : list ascii) :
  take_component s out = (o, s') -> exists pre, o = pre ++ out.
Proof.
  revert out. induction s as [|c s IH]; intros out; simpl.
  - intros [= <- _]. by exists [].
  - destruct (IsPathSeparator c).
    + intros [= <- _]. by exists [].
    + intros H. destruct (IH _ H) as [pre ->]. exists (pre ++ [c]). by rewrite <- app_assoc.
Qed.

Lemma back_loop_suffix (c : ascii) (rest : list ascii) (dd : nat) :
  (dd <= List.length rest)%nat ->
  exists pre, rest = pre ++ back_loop c rest dd /\ (dd <= List.length (back_loop c rest dd))%nat.
Proof.
  revert c. induction rest as [|c' rest IH]; intros c Hl.
  - exists []. simpl. split; [done|]. simpl in Hl. lia.
  - unfold back_loop; fold back_loop. destruct ((dd <? List.length (c' :: rest))%nat && negb (IsPathSeparator c)) eqn:E.
    + apply andb_prop in E as [E _]. apply Nat.ltb_lt in E. simpl in E.
      destruct (IH c' ltac:(lia)) as (pre & Hpre & Hle).
      exists (c' :: pre). split; [simpl; by f_equal|done].
    + exists []. split; [done|exact Hl].
Qed.

Lemma ends_slash_suffix (pre res l : list ascii) (x : ascii) :
  pre ++ res = l ++ [x] -> res <> [] -> exists l', res = l' ++ [x].
Proof.
  intros H Hres. destruct (exists_last Hres) as [r0 [y ->]].
  rewrite app_assoc in H. apply app_inj_tail in H as [_ ->]. by exists r0.
Qed.

Lemma clean_loop_rooted (f : nat) (s out : list ascii) :
  (exists l, out = l ++ ["/"%char]) ->
  exists l, clean_loop f true s out 1 = l ++ ["/"%char].
Proof.
  revert s out. induction f as [|f IH]; intros s out Hout; simpl; [done|].
  destruct s as [|c s]; [done|].
  destruct (IsPathSeparator c); [by apply IH|].
  match goal with |- context [if ?b then _ else _] => destruct b end; [by apply IH|].
  match goal with |- context [if ?b then _ else _] => destruct b end.
  - destruct ((1 <? List.length out)%nat) eqn:Hlt; [|by apply IH].
    apply IH. destruct Hout as [l0 ->]. apply Nat.ltb_lt in Hlt.
    destruct l0 as [|c0 l0]; [simpl in *; lia|]. simpl in *.
    destruct (back_loop_suffix c0 (l0 ++ ["/"%char]) 1) as (pre & Hpre & Hle).
    { rewrite length_app. simpl. lia. }
    apply (ends_slash_suffix pre _ l0); [done|]. intros E. rewrite E in Hle. simpl in Hle. lia.
  - destruct (take_component _ _) as [out2 s2] eqn:Ht. apply IH.
    apply take_component_suffix in Ht as [pre ->].
    destruct Hout as [l0 ->]. case_match.
    + exists (pre ++ "/"%char :: l0). by rewrite <- app_assoc.
    + exists (pre ++ l0). by rewrite <- app_assoc.
Qed.

Lemma IsPathSeparator_slash : IsPathSeparator "/" = true.
Proof. reflexivity. Qed.

Lemma clean_loop_sep (f : nat) (rooted : bool) (s out : list ascii) (dd : nat) :
  clean_loop (S f) rooted ("/"%char :: s) out dd = clean_loop f rooted s out dd.
Proof. reflexivity. Qed.

Lemma clean_loop_nil (f : nat) (rooted : bool) (out : list ascii) (dd : nat) :
  clean_loop f rooted [] out dd = out.
Proof. by destruct f. Qed.

Lemma Clean_rooted (rest : string) : exists r, Clean (String "/" rest) = String "/" r.
Proof.
  unfold Clean. cbn [list_ascii_of_string]. rewrite IsPathSeparator_slash.
  destruct (clean_loop_rooted (List.length ("/"%char :: list_ascii_of_string rest))
              ("/"%char :: list_ascii_of_string rest) ["/"%char]) as [l Hl]; [by exists []|].
  cbv beta iota zeta. rewrite Hl.
  destruct l as [|x l]; simpl; [by eexists|].
  rewrite rev_app_distr. simpl. by eexists.
Qed.

Lemma normal_component_spec (c : string) :
  normal_component c = true ->
  exists x l, list_ascii_of_string c = x :: l /\
    Forall (fun a => IsPathSeparator a = false) (x :: l) /\
    x :: l <> ["."%char] /\ x :: l <> ["."%char; "."%char].
Proof.
  unfold normal_component. intros H.
  apply andb_prop in H as [H H4]. apply andb_prop in H as [H H3].
  apply andb_prop in H as [H1 H2].
  destruct c as [|x c]; [discriminate|]. exists x, (list_ascii_of_string c).
  split; [done|]. split.
  - apply List.Forall_forall. intros a Ha. apply forallb_forall with (x := a) in H4; [|exact Ha].
    by apply negb_true_iff in H4.
  - split; intros E; injection E as -> E; destruct c as [|y c]; try discriminate E.
    + discriminate H2.
    + injection E as -> E. destruct c; [discriminate H3|discriminate E].
Qed.

Lemma clean_loop_component (f : nat) (c : string) (s out : list ascii) :
  normal_component c = true ->
  (match s with [] => True | x :: _ => IsPathSeparator x = true end) ->
  clean_loop (S f) true (list_ascii_of_string c ++ s) out 1 =
    clean_loop f true s (add_component out c) 1.
Proof.
  intros Hn Hs. unfold add_component.
  destruct (normal_component_spec c Hn) as (x & l & Hc & Hall & H1 & H2). rewrite Hc.
  pose proof Hall as Hall'. apply Forall_cons in Hall' as [Hx Hl].
  assert (Hc2 : (Ascii.eqb x "." && match l ++ s with [] => true | c1 :: _ => IsPathSeparator c1 end) = false).
  { destruct (Ascii.eqb_spec x "."); [subst x|done]. simpl.
    destruct l as [|y l]; [done|]. simpl. by apply Forall_cons in Hl as [-> _]. }
  assert (Hc3 : (Ascii.eqb x "." && match l ++ s with
                 | [] => false
                 | c1 :: s'' => Ascii.eqb c1 "." &&
                     match s'' with [] => true | c2 :: _ => IsPathSeparator c2 end
                 end) = false).
  { destruct (Ascii.eqb_spec x "."); [subst x|done]. simpl.
    destruct l as [|y l]; [done|]. simpl.
    destruct (Ascii.eqb_spec y "."); [subst y|done]. simpl.
    destruct l as [|z l]; [done|]. simpl. apply Forall_cons in Hl as [_ Hl].
    by apply Forall_cons in Hl as [-> _]. }
  rewrite <- app_comm_cons. cbn [clean_loop]. rewrite Hx, Hc2, Hc3.
  rewrite app_comm_cons. cbn [andb orb negb].
  rewrite orb_false_r. rewrite take_component_nosep by done.
  destruct (negb _); reflexivity.
Qed.

Lemma path_of_cons_list (c : string) (cs : list string) :
  list_ascii_of_string (path_of (c :: cs)) =
    "/"%char :: list_ascii_of_string c ++ list_ascii_of_string (path_of cs).
Proof. cbn [path_of list_ascii_of_string]. by rewrite list_ascii_of_string_append. Qed.

Lemma path_of_start (cs : list string) :
  match list_ascii_of_string (path_of cs) with [] => True | x :: _ => IsPathSeparator x = true end.
Proof. destruct cs; [done|]. by rewrite path_of_cons_list. Qed.

Lemma clean_loop_path (cs : list string) (s out : list ascii) (f : nat) :
  Forall (fun c => normal_component c = true) cs ->
  (match s with [] => True | x :: _ => IsPathSeparator x = true end) ->
  (List.length (list_ascii_of_string (path_of cs) ++ s) <= f)%nat ->
  exists f', (List.length s <= f')%nat /\
    clean_loop f true (list_ascii_of_string (path_of cs) ++ s) out 1 =
    clean_loop f' true s (fold_left add_component cs out) 1.
Proof.
  intros Hcs. revert out f. induction Hcs as [|c cs Hc Hcs IH]; intros out f Hs Hf.
  - exists f. split; [simpl in Hf; lia|done].
  - rewrite path_of_cons_list in *. 
    destruct (normal_component_spec c Hc) as (x & l & Hcl & _).
    rewrite Hcl in Hf. simpl in Hf. rewrite length_app in Hf.
    destruct f as [|[|f]]; [lia|lia|].
    rewrite <- app_comm_cons, clean_loop_sep.
    rewrite <- app_assoc. rewrite clean_loop_component; [|done|].
    2:{ pose proof (path_of_start cs) as Hp.
        destruct (list_ascii_of_string (path_of cs)); [exact Hs|exact Hp]. }
    apply IH; [exact Hs|]. rewrite length_app in Hf |- *. lia.
Qed.

Lemma append_assoc' (a b c : string) :
  String.append a (String.append b c) = String.append (String.append a b) c.
Proof.
  induction a as [|x a IH]; [done|].
  change (String x (String.append a (String.append b c)) =
          String x (String.append (String.append a b) c)). by rewrite IH.
Qed.

Lemma path_of_app (a b : list string) :
  path_of (a ++ b) = String.append (path_of a) (path_of b).
Proof.
  induction a as [|c a IH]; [done|]. simpl. rewrite IH, append_assoc'. done.
Qed.

Lemma path_of_length (cs : list string) :
  Forall (fun c => normal_component c = true) cs -> cs <> [] ->
  (2 <= List.length (list_ascii_of_string (path_of cs)))%nat.
Proof.
  intros Hcs Hne. destruct Hcs as [|c cs Hc _]; [done|].
  rewrite path_of_cons_list. destruct (normal_component_spec c Hc) as (x & l & -> & _).
  simpl. lia.
Qed.

Lemma fold_add_component (cs : list string) :
  Forall (fun c => normal_component c = true) cs -> cs <> [] ->
  fold_left add_component cs ["/"%char] = rev (list_ascii_of_string (path_of cs)).
Proof.
  induction cs as [|c cs IH] using rev_ind; [done|]. intros Hcs _.
  apply Forall_app in Hcs as [Hcs Hc]. rewrite fold_left_app. cbn [fold_left].
  rewrite path_of_app, list_ascii_of_string_append. simpl.
  rewrite list_ascii_of_string_append. simpl. rewrite app_nil_r.
  destruct (decide (cs = [])) as [->|Hne]; [done|].
  rewrite IH by done. unfold add_component.
  pose proof (path_of_length cs Hcs Hne) as Hl.
  rewrite length_rev. destruct (List.length _ =? 1)%nat eqn:E; [apply Nat.eqb_eq in E; lia|].
  simpl. rewrite rev_app_distr. simpl. by rewrite <- app_assoc.
Qed.

Lemma Clean_unfold (path : string) (l : list ascii) :
  list_ascii_of_string path = "/"%char :: l ->
  Clean path =
    let out := clean_loop (S (List.length l)) true ("/"%char :: l) ["/"%char] 1 in
    string_of_list_ascii (rev (match out with [] => ["."%char] | _ => out end)).
Proof. intros H. unfold Clean. cbv zeta. rewrite H. reflexivity. Qed.

Lemma Clean_finish (cs : list string) :
  Forall (fun c => normal_component c = true) cs -> cs <> [] ->
  (let out := fold_left add_component cs ["/"%char] in
   string_of_list_ascii (rev (match out with [] => ["."%char] | _ => out end))) = path_of cs.
Proof.
  intros Hcs Hne. cbv zeta. rewrite fold_add_component by done.
  pose proof (path_of_length cs Hcs Hne) as Hl.
  destruct (rev (list_ascii_of_string (path_of cs))) eqn:E.
  - apply (f_equal (@List.length ascii)) in E. rewrite length_rev in E. simpl in E. lia.
  - rewrite <- E, rev_involutive. apply string_of_list_ascii_of_string.
Qed.

(** [Clean] leaves a rooted path of ordinary components unchanged. *)

Lemma Clean_path_of (cs : list string) :
  Forall (fun c => normal_component c = true) cs -> cs <> [] ->
  Clean (path_of cs) = path_of cs.
Proof.
  intros Hcs Hne. destruct cs as [|c cs0]; [done|].
  rewrite (Clean_unfold _ (list_ascii_of_string c ++ list_ascii_of_string (path_of cs0)))
    by apply path_of_cons_list.
  rewrite <- path_of_cons_list, <- (app_nil_r (list_ascii_of_string (path_of (c :: cs0)))).
  destruct (clean_loop_path (c :: cs0) [] ["/"%char]
              (S (List.length (list_ascii_of_string c ++ list_ascii_of_string (path_of cs0)))))
    as (f' & _ & ->); [done|done| |].
  { rewrite app_nil_r, path_of_cons_list. simpl. lia. }
  rewrite clean_loop_nil. by apply Clean_finish.
Qed.

(** [Clean] drops the doubled separator between two such paths. *)

Lemma Clean_path_of_sep (cs rs : list string) :
  Forall (fun c => normal_component c = true) cs -> cs <> [] ->
  Forall (fun c => normal_component c = true) rs ->
  Clean (String.append (path_of cs) (String "/" (path_of rs))) = path_of (cs ++ rs).
Proof.
  intros Hcs Hne Hrs. destruct cs as [|c cs0]; [done|].
  set (l := list_ascii_of_string c ++ list_ascii_of_string (path_of cs0) ++
              "/"%char :: list_ascii_of_string (path_of rs)).
  assert (Hl : list_ascii_of_string (String.append (path_of (c :: cs0)) (String "/" (path_of rs)))
               = "/"%char :: l).
  { rewrite list_ascii_of_string_append, path_of_cons_list. simpl. subst l.
    by rewrite <- app_assoc. }
  rewrite (Clean_unfold _ l Hl).
  assert (Hl2 : "/"%char :: l = list_ascii_of_string (path_of (c :: cs0)) ++
                  "/"%char :: list_ascii_of_string (path_of rs)).
  { rewrite <- Hl, list_ascii_of_string_append. done. }
  rewrite Hl2.
  destruct (clean_loop_path (c :: cs0) ("/"%char :: list_ascii_of_string (path_of rs)) ["/"%char]
              (S (List.length l))) as (f1 & Hf1 & ->); [done|done| |].
  { rewrite <- Hl2. simpl. lia. }
  destruct f1 as [|f1]; [simpl in Hf1; lia|]. rewrite clean_loop_sep.
  rewrite <- (app_nil_r (list_ascii_of_string (path_of rs))).
  destruct (clean_loop_path rs [] (fold_left add_component (c :: cs0) ["/"%char]) f1)
    as (f2 & _ & ->); [done|done| |].
  { simpl in Hf1. rewrite app_nil_r. lia. }
  rewrite clean_loop_nil, <- fold_left_app. apply Clean_finish; [by apply Forall_app|done].
Qed.

Lemma path_of_nonempty (hs : list string) :
  hs <> [] -> String.eqb (path_of hs) "" = false.
Proof. by destruct hs. Qed.

Lemma Join_home (h r : string) :
  String.eqb h "" = false -> Join [h; r] = Clean (String.append h (String "/" r)).
Proof. intros H. simpl. by rewrite H. Qed.

Lemma expand_tilde_some (usr : User) (rest : string) :
  expand (Some usr) (String "~" rest) = (Join [HomeDir usr; rest], None).
Proof. reflexivity. Qed.

Lemma expand_other (u : option User) (c : ascii) (rest : string) :
  c <> "~"%char -> expand u (String c rest) = (String c rest, None).
Proof. intros Hc. unfold expand. by rewrite (proj2 (Ascii.eqb_neq c "~") Hc). Qed.

(** ** Claims *)

(** C2: a contribution with a port whose name is already in the service's
    port set with another [ServicePort] or [Protocol] fails with
    [ConflictError] and leaves the whole registry (backends, ports,
    prefixes, address, flag, pool) as it was. *)
Theorem Contribute_conflict_atomic (r : Registry) (serviceName clusterName : string)
    (ports : list Port) (backendAddress : string) (dnsPrefixes : list string)
    (e : Entry) (p q : Port) :
  services r !! serviceName = Some e -> In p ports -> e_ports e !! PortName p = Some q ->
  (ServicePort q <> ServicePort p \/ Protocol q <> Protocol p) ->
  Contribute serviceName clusterName ports backendAddress dnsPrefixes r = (Some ConflictError, r).
Proof.
  intros He Hp Hq Hd. unfold Contribute. rewrite He. unfold contribute_entry.
  by rewrite (merge_ports_conflict _ _ _ _ Hp Hq Hd).
Qed.

Lemma Contribute_conflict_atomic_witness :
  exists e, services reg_A !! "svc" = Some e /\
    e_ports e !! "http" = Some (http_port 80 8080) /\
    Contribute "svc" "B" [http_port 81 8080] "10.2.0.1" [] reg_A = (Some ConflictError, reg_A).
Proof.
  eexists. split; [reflexivity|]. split; [reflexivity|].
  eapply (Contribute_conflict_atomic reg_A "svc" "B" [http_port 81 8080] "10.2.0.1" []
            _ (http_port 81 8080) (http_port 80 8080)).
  - reflexivity.
  - left. reflexivity.
  - reflexivity.
  - left. discriminate.
Defined.

(** C3: in every reachable registry state, contributing twice with the
    same arguments leaves the state of a single contribution (same
    backends, ports, prefixes, address and pool). *)
Theorem Contribute_idempotent (r : Registry) (serviceName clusterName : string)
    (ports : list Port) (backendAddress : string) (dnsPrefixes : list string) :
  reachable r ->
  snd (Contribute serviceName clusterName ports backendAddress dnsPrefixes
         (snd (Contribute serviceName clusterName ports backendAddress dnsPrefixes r))) =
  snd (Contribute serviceName clusterName ports backendAddress dnsPrefixes r).
Proof.
  intros Hr. unfold Contribute at 2 3.
  destruct (services r !! serviceName) as [e|] eqn:Hs.
  - destruct (contribute_entry clusterName ports backendAddress dnsPrefixes e) as [e'|] eqn:He.
    + simpl. unfold Contribute. simpl. rewrite lookup_insert_eq.
      rewrite (contribute_entry_idem _ _ _ _ e e'); [|by eapply reachable_dns_sorted|done].
      simpl. by rewrite insert_insert_eq.
    + simpl. unfold Contribute. rewrite Hs, He. done.
  - destruct (Allocate (pool r)) as [[x p']|] eqn:Ha.
    + destruct (contribute_entry clusterName ports backendAddress dnsPrefixes (new_entry x))
        as [e'|] eqn:He.
      * simpl. unfold Contribute. simpl. rewrite lookup_insert_eq.
        rewrite (contribute_entry_idem _ _ _ _ (new_entry x) e'); [|constructor|done].
        simpl. by rewrite insert_insert_eq.
      * simpl. unfold Contribute. rewrite Hs, Ha, He. done.
    + simpl. unfold Contribute. rewrite Hs, Ha. done.
Qed.

Lemma Contribute_idempotent_witness :
  reachable reg_A /\
  snd (Contribute "svc" "B" [http_port 80 9090] "10.2.0.1" ["svc.ns2"]
         (snd (Contribute "svc" "B" [http_port 80 9090] "10.2.0.1" ["svc.ns2"] reg_A))) =
  snd (Contribute "svc" "B" [http_port 80 9090] "10.2.0.1" ["svc.ns2"] reg_A).
Proof.
  assert (reachable reg_A) as H.
  { exact (reach_step (OpContribute "svc" "A" [http_port 80 8080] "10.1.0.1" ["svc.ns1"])
             _ (reach_init pool0)). }
  split; [exact H|]. exact (Contribute_idempotent _ _ _ _ _ _ H).
Defined.

(** C1 as stated, refuted: when cluster B's ports disagree with A's
    (http:81 against http:80), the interleaving "A then B" ends with no
    backend for B: B's contribution is rejected with [ConflictError]. *)
Lemma no_lost_update_counterexample :
  In [OpContribute "svc" "A" [http_port 80 8080] "10.1.0.1" [];
      OpContribute "svc" "B" [http_port 81 9090] "10.2.0.1" []]
     (interleavings [OpContribute "svc" "A" [http_port 80 8080] "10.1.0.1" []]
                    [OpContribute "svc" "B" [http_port 81 9090] "10.2.0.1" []]) /\
  services (empty_registry pool0) !! "svc" = None /\
  fst (run [OpContribute "svc" "A" [http_port 80 8080] "10.1.0.1" [];
            OpContribute "svc" "B" [http_port 81 9090] "10.2.0.1" []]
           (empty_registry pool0)) = [None; Some ConflictError] /\
  exists e,
    services (snd (run [OpContribute "svc" "A" [http_port 80 8080] "10.1.0.1" [];
                        OpContribute "svc" "B" [http_port 81 9090] "10.2.0.1" []]
                       (empty_registry pool0))) !! "svc" = Some e /\
    e_backends e !! "B" = None.
Proof.
  split; [left; reflexivity|]. split; [reflexivity|]. split; [vm_compute; reflexivity|].
  eexists. split; [vm_compute; reflexivity|]. vm_compute. reflexivity.
Qed.

(** C1 (amended): for a service that does not exist yet, in both
    interleavings of a contribution from cluster A and one from cluster B,
    if both calls succeed then the record has A's and B's backends, and
    exactly one address was taken from the pool: the record's address. *)
Theorem no_lost_update (r : Registry) (s A B : string) (psA psB : list Port)
    (aA aB : string) (dA dB : list string) (tr : list Op) :
  A <> B -> services r !! s = None ->
  In tr (interleavings [OpContribute s A psA aA dA] [OpContribute s B psB aB dB]) ->
  fst (run tr r) = [None; None] ->
  exists e x, services (snd (run tr r)) !! s = Some e /\
    e_backends e !! A = Some aA /\ e_backends e !! B = Some aB /\
    e_address e = x /\ (x ∉ in_use (pool r)) /\
    in_use (pool (snd (run tr r))) = {[x]} ∪ in_use (pool r).
Proof.
  intros Hab Hs Hin Hok. simpl in Hin.
  destruct Hin as [<-|[<-|[]]].
  - by apply two_contributions.
  - destruct (two_contributions r s B A psB psA aB aA dB dA) as (e & x & H); [congruence|done|done|].
    exists e, x. naive_solver.
Qed.

Lemma no_lost_update_witness :
  "A" <> "B" /\ services (empty_registry pool0) !! "svc" = None /\
  In [OpContribute "svc" "B" [http_port 80 9090] "10.2.0.1" [];
      OpContribute "svc" "A" [http_port 80 8080] "10.1.0.1" []]
     (interleavings [OpContribute "svc" "A" [http_port 80 8080] "10.1.0.1" []]
                    [OpContribute "svc" "B" [http_port 80 9090] "10.2.0.1" []]) /\
  fst (run [OpContribute "svc" "B" [http_port 80 9090] "10.2.0.1" [];
            OpContribute "svc" "A" [http_port 80 8080] "10.1.0.1" []]
           (empty_registry pool0)) = [None; None] /\
  exists e x,
    services (snd (run [OpContribute "svc" "B" [http_port 80 9090] "10.2.0.1" [];
                        OpContribute "svc" "A" [http_port 80 8080] "10.1.0.1" []]
                       (empty_registry pool0))) !! "svc" = Some e /\
    e_backends e !! "A" = Some "10.1.0.1" /\ e_backends e !! "B" = Some "10.2.0.1" /\
    e_address e = x /\ (x ∉ in_use (pool (empty_registry pool0))) /\
    in_use (pool (snd (run [OpContribute "svc" "B" [http_port 80 9090] "10.2.0.1" [];
                            OpContribute "svc" "A" [http_port 80 8080] "10.1.0.1" []]
                           (empty_registry pool0)))) =
      {[x]} ∪ in_use (pool (empty_registry pool0)).
Proof.
  split; [discriminate|]. split; [reflexivity|]. split; [right; left; reflexivity|].
  split; [vm_compute; reflexivity|].
  apply (no_lost_update (empty_registry pool0) "svc" "A" "B" [http_port 80 8080]
           [http_port 80 9090] "10.1.0.1" "10.2.0.1" [] []).
  - discriminate.
  - reflexivity.
  - right. left. reflexivity.
  - vm_compute. reflexivity.
Defined.

Lemma reachable_unregistered_empty (r : Registry) :
  reachable r -> forall k e, services r !! k = Some e ->
  e_unregistered e = true -> e_backends e = ∅.
Proof.
  apply (reachable_entries (fun e => e_unregistered e = true -> e_backends e = ∅)).
  - done.
  - intros c ps a d e e' _ He. apply contribute_entry_backends in He as (_ & _ & -> & _).
    done.
  - intros c e v Hinv Hv. unfold withdraw_entry. simpl.
    case_decide as Hd; [done|]. intros Hu. rewrite (Hinv Hu) in Hv. done.
Qed.

(** C4 as stated, refuted: a contribution to an unregistered record is
    rejected when its port disagrees with the port set the record kept, and
    the record stays unregistered. *)
Lemma unregistered_contribute_counterexample :
  exists e,
    services reg_A_gone !! "svc" = Some e /\ e_unregistered e = true /\
    e_backends e = ∅ /\
    Contribute "svc" "B" [http_port 81 9090] "10.2.0.1" [] reg_A_gone =
      (Some ConflictError, reg_A_gone).
Proof.
  eexists. split; [vm_compute; reflexivity|]. split; [reflexivity|].
  split; [vm_compute; reflexivity|]. vm_compute. reflexivity.
Qed.

(** C4 (amended): in every reachable state an unregistered record has no
    backends; a withdrawal that removes the last backend makes the record
    unregistered; a contribution to an unregistered record either succeeds,
    clearing the flag and adding the cluster's backend, or is rejected with
    [ConflictError] and changes nothing. *)
Theorem unregistered_lifecycle :
  (forall r, reachable r -> forall s g, Get s r = inr g ->
     Unregistered g = true -> Backends g = ∅) /\
  (forall r s c e v, services r !! s = Some e -> e_backends e !! c = Some v ->
     delete c (e_backends e) = ∅ ->
     exists e', services (snd (Withdraw s c r)) !! s = Some e' /\
       e_unregistered e' = true /\ e_backends e' = ∅) /\
  (forall r s c ps a d e err r', services r !! s = Some e -> e_unregistered e = true ->
     Contribute s c ps a d r = (err, r') ->
     (err = None /\ exists e', services r' !! s = Some e' /\
        e_unregistered e' = false /\ e_backends e' !! c = Some a) \/
     (err = Some ConflictError /\ r' = r)).
Proof.
  split; [|split].
  - intros r Hr s g. unfold Get. destruct (services r !! s) as [e|] eqn:He; [|done].
    intros [= <-]. simpl. by apply (reachable_unregistered_empty r Hr s).
  - intros r s c e v Hs Hv Hd. unfold Withdraw. rewrite Hs, Hv. simpl.
    rewrite lookup_insert_eq. eexists. split; [done|]. unfold withdraw_entry. simpl.
    by rewrite decide_True.
  - intros r s c ps a d e err r' Hs Hu. unfold Contribute. rewrite Hs.
    destruct (contribute_entry c ps a d e) as [e'|] eqn:He.
    + intros [= <- <-]. left. split; [done|]. exists e'. simpl.
      rewrite lookup_insert_eq. apply contribute_entry_backends in He as (-> & _ & -> & _).
      split; [done|]. split; [done|]. apply lookup_insert_eq.
    + intros [= <- <-]. by right.
Qed.

Lemma unregistered_lifecycle_witness :
  (exists g, Get "svc" reg_A_gone = inr g /\ Unregistered g = true /\ Backends g = ∅) /\
  (exists e', services (snd (Withdraw "svc" "A" reg_A)) !! "svc" = Some e' /\
     e_unregistered e' = true /\ e_backends e' = ∅) /\
  (exists e, services reg_A_gone !! "svc" = Some e /\ e_unregistered e = true /\
     ((@None RegistryError = None /\ exists e', services (snd (Contribute "svc" "B" [http_port 80 9090]
                                   "10.2.0.1" [] reg_A_gone)) !! "svc" = Some e' /\
         e_unregistered e' = false /\ e_backends e' !! "B" = Some "10.2.0.1") \/
      (@None RegistryError = Some ConflictError /\
         snd (Contribute "svc" "B" [http_port 80 9090] "10.2.0.1" [] reg_A_gone) = reg_A_gone))).
Proof.
  destruct unregistered_lifecycle as (H1 & H2 & H3).
  assert (reachable reg_A_gone) as Hr.
  { exact (reach_step (OpWithdraw "svc" "A") _
             (reach_step (OpContribute "svc" "A" [http_port 80 8080] "10.1.0.1" ["svc.ns1"])
                _ (reach_init pool0))). }
  split; [|split].
  - eexists. split; [vm_compute; reflexivity|]. split; [vm_compute; reflexivity|].
    eapply (H1 reg_A_gone Hr "svc"); vm_compute; reflexivity.
  - eapply (H2 reg_A "svc" "A" _ "10.1.0.1"); vm_compute; reflexivity.
  - eexists. split; [vm_compute; reflexivity|]. split; [vm_compute; reflexivity|].
    eapply (H3 reg_A_gone "svc" "B" [http_port 80 9090] "10.2.0.1" [] _ None);
      vm_compute; reflexivity.
Defined.

(** C5: [Delete] of an absent service is [NotFoundError]; of a service
    that is not unregistered, [PreconditionFailedError] with the registry
    unchanged; otherwise it removes the record and returns its address to
    the pool, so that [Allocate] hands it out again once it is the lowest
    free address of the range. *)
Theorem Delete_spec (r : Registry) (s : string) :
  (services r !! s = None -> Delete s r = (Some NotFoundError, r)) /\
  (forall e, services r !! s = Some e -> e_unregistered e = false ->
     Delete s r = (Some PreconditionFailedError, r)) /\
  (forall e, services r !! s = Some e -> e_unregistered e = true ->
     exists r', Delete s r = (None, r') /\
       services r' = delete s (services r) /\
       in_use (pool r') = in_use (pool r) ∖ {[e_address e]} /\
       ((base (pool r) <= e_address e < base (pool r) + N.of_nat (size (pool r)))%N ->
        (forall b, (base (pool r) <= b < e_address e)%N -> b ∈ in_use (pool r')) ->
        exists p'', Allocate (pool r') = Some (e_address e, p''))).
Proof.
  split; [|split].
  - intros Hs. unfold Delete. by rewrite Hs.
  - intros e Hs Hu. unfold Delete. by rewrite Hs, Hu.
  - intros e Hs Hu. unfold Delete. rewrite Hs, Hu. eexists. split; [done|].
    split; [done|]. split; [done|]. intros Hrange Hlow.
    apply Allocate_lowest; [exact Hrange| |exact Hlow]. simpl. set_solver.
Qed.

Lemma Delete_spec_witness :
  (services reg_A !! "other" = None /\ Delete "other" reg_A = (Some NotFoundError, reg_A)) /\
  (exists e, services reg_A !! "svc" = Some e /\ e_unregistered e = false /\
     Delete "svc" reg_A = (Some PreconditionFailedError, reg_A)) /\
  (exists e, services reg_A_gone !! "svc" = Some e /\ e_unregistered e = true /\
     exists r', Delete "svc" reg_A_gone = (None, r') /\
       services r' = delete "svc" (services reg_A_gone) /\
       in_use (pool r') = in_use (pool reg_A_gone) ∖ {[e_address e]} /\
       exists p'', Allocate (pool r') = Some (e_address e, p'')).
Proof.
  split; [|split].
  - split; [vm_compute; reflexivity|]. apply (Delete_spec reg_A "other"). vm_compute. reflexivity.
  - eexists. split; [vm_compute; reflexivity|]. split; [vm_compute; reflexivity|].
    eapply (Delete_spec reg_A "svc"); vm_compute; reflexivity.
  - destruct (services reg_A_gone !! "svc") as [e|] eqn:He;
      [|vm_compute in He; discriminate He].
    assert (e_unregistered e = true) as Hu.
    { vm_compute in He. injection He as <-. reflexivity. }
    assert (e_address e = 167772160%N) as Ha.
    { vm_compute in He. injection He as <-. reflexivity. }
    assert (base (pool reg_A_gone) = 167772160%N) as Hbase by (vm_compute; reflexivity).
    assert (size (pool reg_A_gone) = 16%nat) as Hsize by (vm_compute; reflexivity).
    exists e. split; [reflexivity|]. split; [exact Hu|].
    destruct (proj2 (proj2 (Delete_spec reg_A_gone "svc")) e He Hu)
      as (r' & H1 & H2 & H3 & H4).
    exists r'. split; [exact H1|]. split; [exact H2|]. split; [exact H3|].
    apply H4.
    + rewrite Ha, Hbase, Hsize. lia.
    + intros b Hb. exfalso. rewrite Ha, Hbase in Hb. lia.
Defined.

(** C7: the prefixes a reader sees are strictly sorted in every reachable
    state; a successful contribution makes them the union of the previous
    ones and the contributed ones; the list depends only on the set of
    prefixes, not on the order they were contributed in; contributing
    ["b.ns1"] and then ["a.ns1"] reads back ["a.ns1"; "b.ns1"]. *)
Theorem dns_prefixes_sorted_union :
  (forall r, reachable r -> forall s g, Get s r = inr g ->
     StronglySorted str_lt (DNSPrefixes g)) /\
  (forall r s c ps a d r' g', Contribute s c ps a d r = (None, r') -> Get s r' = inr g' ->
     forall x, In x (DNSPrefixes g') <->
       In x (match Get s r with inr g => DNSPrefixes g | inl _ => [] end) \/ In x d) /\
  (forall l1 l2 d1 d2, StronglySorted str_lt l1 -> StronglySorted str_lt l2 ->
     (forall x, In x l1 \/ In x d1 <-> In x l2 \/ In x d2) ->
     dns_union l1 d1 = dns_union l2 d2) /\
  (match Get "s" (snd (Contribute "s" "A" [] "10.1.0.1" ["a.ns1"]
                   (snd (Contribute "s" "A" [] "10.1.0.1" ["b.ns1"] (empty_registry pool0)))))
   with inr g => DNSPrefixes g | inl _ => [] end = ["a.ns1"; "b.ns1"]).
Proof.
  split; [|split; [|split]].
  - intros r Hr s g. unfold Get. destruct (services r !! s) as [e|] eqn:He; [|done].
    intros [= <-]. simpl. by apply (reachable_dns_sorted r Hr s).
  - intros r s c ps a d r' g' Hc. unfold Get at 2.
    destruct (services r !! s) as [e|] eqn:Hs.
    + destruct (Contribute_present_ok _ _ _ _ _ _ _ e Hs Hc) as (e' & He' & Hr').
      rewrite Hr'. unfold Get. simpl. rewrite lookup_insert_eq. intros [= <-] x. simpl.
      apply contribute_entry_backends in He' as (_ & _ & _ & -> & _).
      apply dns_union_In.
    + destruct (Contribute_absent_ok _ _ _ _ _ _ _ Hs Hc) as (x0 & p' & e' & _ & He' & Hr').
      rewrite Hr'. unfold Get. simpl. rewrite lookup_insert_eq. intros [= <-] x. simpl.
      apply contribute_entry_backends in He' as (_ & _ & _ & -> & _).
      apply dns_union_In.
  - intros l1 l2 d1 d2 H1 H2 Hx. apply sorted_unique.
    + by apply dns_union_sorted.
    + by apply dns_union_sorted.
    + intros x. rewrite !dns_union_In. apply Hx.
  - vm_compute. reflexivity.
Qed.

Lemma dns_prefixes_sorted_union_witness :
  (exists g, Get "svc" reg_A = inr g /\ StronglySorted str_lt (DNSPrefixes g)) /\
  (forall x, In x (match Get "svc" (snd (Contribute "svc" "B" [] "10.2.0.1" ["a.ns1"] reg_A))
                   with inr g => DNSPrefixes g | inl _ => [] end) <->
     In x (match Get "svc" reg_A with inr g => DNSPrefixes g | inl _ => [] end) \/
     In x ["a.ns1"]) /\
  dns_union ["c.ns1"] ["b.ns1"; "a.ns1"] = dns_union ["a.ns1"] ["c.ns1"; "b.ns1"].
Proof.
  destruct dns_prefixes_sorted_union as (H1 & H2 & H3 & _).
  assert (reachable reg_A) as Hr.
  { exact (reach_step (OpContribute "svc" "A" [http_port 80 8080] "10.1.0.1" ["svc.ns1"])
             _ (reach_init pool0)). }
  split; [|split].
  - eexists. split; [vm_compute; reflexivity|].
    eapply (H1 reg_A Hr "svc"). vm_compute. reflexivity.
  - destruct (Contribute "svc" "B" [] "10.2.0.1" ["a.ns1"] reg_A) as [err r'] eqn:Hc.
    assert (err = None) as -> by (vm_compute in Hc; injection Hc as <- _; reflexivity).
    cbn [snd]. destruct (Get "svc" r') as [er|g'] eqn:Hg.
    + exfalso. vm_compute in Hc. injection Hc as <-. vm_compute in Hg. discriminate Hg.
    + exact (H2 reg_A "svc" "B" [] "10.2.0.1" ["a.ns1"] r' g' Hc Hg).
  - apply H3.
    + repeat constructor.
    + repeat constructor.
    + intros x. simpl. tauto.
Defined.

(** C9: when contributions arrive through the handlers, every port of
    every record has a protocol among HTTP, HTTPS, GRPC, HTTP2, MONGO and
    TCP; an Added or Updated event with a port of another protocol is
    rejected with [ValidationError] before any registry operation, and the
    registry is left as it was. *)
Theorem protocols_validated :
  (forall r, handled_reachable r -> forall s g, Get s r = inr g ->
     forall p, In p (Ports g) -> Protocol p ∈ valid_protocols) /\
  (forall c k s ps a d r p, k <> Removed -> In p ps -> Protocol p ∉ valid_protocols ->
     HandleEvent c k s ps a d r = (Some ValidationError, r)).
Proof.
  split.
  - intros r Hr s g. unfold Get. destruct (services r !! s) as [e|] eqn:He; [|done].
    intros [= <-] p Hp. simpl in Hp.
    apply list_elem_of_In, list_elem_of_fmap in Hp as ([n p'] & -> & Hin).
    apply elem_of_map_to_list in Hin.
    pose proof (handled_reachable_protocols r Hr s e He n p' Hin) as Hv.
    unfold valid_protocol in Hv. by apply bool_decide_eq_true in Hv.
  - intros c k s ps a d r p Hk Hp Hbad. unfold HandleEvent.
    assert (validate s ps = false) as ->.
    { unfold validate. apply andb_false_iff. right.
      destruct (forallb (fun p => valid_protocol (Protocol p)) ps) eqn:Hf; [|done].
      exfalso. apply Hbad. eapply forallb_forall in Hf; [|exact Hp].
      unfold valid_protocol in Hf. by apply bool_decide_eq_true in Hf. }
    by destruct k.
Qed.

Lemma protocols_validated_witness :
  (exists g, Get "svc" reg_h = inr g /\
     forall p, In p (Ports g) -> Protocol p ∈ valid_protocols) /\
  HandleEvent "B" Updated "svc" [mkPort 53 "UDP" 53 "dns"] "10.2.0.1" [] reg_h =
    (Some ValidationError, reg_h).
Proof.
  destruct protocols_validated as [H1 H2].
  split.
  - eexists. split; [vm_compute; reflexivity|].
    eapply (H1 reg_h (hreach_event _ _ _ _ _ _ _ (hreach_init pool0)) "svc").
    vm_compute. reflexivity.
  - apply (H2 "B" Updated "svc" [mkPort 53 "UDP" 53 "dns"] "10.2.0.1" [] reg_h
             (mkPort 53 "UDP" 53 "dns")).
    + discriminate.
    + left. reflexivity.
    + simpl. intros H. assert (valid_protocol "UDP" = true) as Hv.
      { unfold valid_protocol. by apply bool_decide_eq_true. }
      vm_compute in Hv. discriminate Hv.
Defined.

(** C8 as stated, refuted: a record with [Unregistered = false] is written
    without the [unregistered] key (its tag has [omitempty]). *)
Lemma serialized_field_names_counterexample :
  Unregistered zero_GlobalService = false /\
  json_keys (encode_GlobalService zero_GlobalService) <>
    ["name"; "dns_prefixes"; "ports"; "backends"; "address"; "unregistered"].
Proof. split; [reflexivity|]. vm_compute. discriminate. Qed.

(** C8 (amended): a serialized [GlobalService] has exactly the keys name,
    dns_prefixes, ports, backends, address, in this order, followed by
    unregistered when (and only when) [Unregistered] is true; its ports are
    written as objects with exactly the keys service_port, protocol,
    backend_port, name. *)
Theorem serialized_field_names (g : GlobalService) :
  json_keys (encode_GlobalService g) =
    ["name"; "dns_prefixes"; "ports"; "backends"; "address"] ++
    (if Unregistered g then ["unregistered"] else []) /\
  In ("ports", JArr (map encode_Port (Ports g)))
     (match encode_GlobalService g with JObj kvs => kvs | _ => [] end) /\
  (forall p, json_keys (encode_Port p) = ["service_port"; "protocol"; "backend_port"; "name"]).
Proof.
  split; [|split].
  - unfold encode_GlobalService. simpl. by destruct (Unregistered g).
  - unfold encode_GlobalService. simpl. tauto.
  - done.
Qed.

(** C10: a record with [Unregistered = false] is serialized without the
    [unregistered] key, which appears only for unregistered records;
    decoding an object with no key matching [unregistered] (matched as
    [encoding/json] does, by its tag or by the tag's case-folded form)
    yields [Unregistered = false]; and decoding a serialized record (its
    ports being [uint32] values) gives back its flag. *)
Theorem unregistered_omitempty_roundtrip :
  (forall g, Unregistered g = false -> ~ In "unregistered" (json_keys (encode_GlobalService g))) /\
  (forall g, Unregistered g = true -> In "unregistered" (json_keys (encode_GlobalService g))) /\
  (forall kvs g', Unmarshal (JObj kvs) = Some g' ->
     (forall k, In k kvs.*1 -> key_matches "unregistered" k = false) ->
     Unregistered g' = false) /\
  (forall g, Forall (fun p => (ServicePort p < 2 ^ 32)%N /\ (BackendPort p < 2 ^ 32)%N) (Ports g) ->
     exists g', Unmarshal (encode_GlobalService g) = Some g' /\
       Unregistered g' = Unregistered g).
Proof.
  split; [|split; [|split]].
  - intros g Hu. rewrite (proj1 (serialized_field_names g)), Hu. simpl.
    intros H. repeat destruct H as [H|H]; try discriminate H; done.
  - intros g Hu. rewrite (proj1 (serialized_field_names g)), Hu. simpl. tauto.
  - intros kvs g' Hd Hk. unfold Unmarshal in Hd.
    apply fmap_Some in Hd as (st & Hst & ->).
    exact (fold_decode_flag _ _ _ Hst Hk).
  - intros g Hwf. unfold Unmarshal, encode_GlobalService.
    destruct (decode_slice_some decode_string ""
                (map (fun s => JStr (coerce_utf8 s)) (DNSPrefixes g)) [] []) as [[d1 d2] Hd].
    { apply Forall_map, Forall_forall. intros s _ old. simpl. eauto. }
    destruct (decode_slice_some decode_Port zero_Port (map encode_Port (Ports g)) [] [])
      as [[p1 p2] Hp].
    { apply Forall_map. eapply Forall_impl; [exact Hwf|].
      intros p [Hs Hb] old. by apply decode_Port_encode_some. }
    destruct (decode_backends_encode (sort_by_key (map_to_list (Backends g))) ∅) as [m Hm].
    destruct (ParseIP_ip_string (Address g)) as [a Ha].
    cbn [app fold_opt]. unfold decode_GlobalService_field at 1. simpl.
    rewrite Hd. simpl. rewrite Hp. simpl.
    unfold decode_backends in Hm. rewrite Hm. simpl.
    rewrite ip_string_nonempty, Ha. simpl.
    destruct (Unregistered g); simpl; eauto.
Qed.

Lemma unregistered_omitempty_roundtrip_witness :
  ~ In "unregistered" (json_keys (encode_GlobalService zero_GlobalService)) /\
  In "unregistered" (json_keys (encode_GlobalService
    (mkGlobalService "svc" [] [http_port 80 8080] ∅ 167772160 true))) /\
  (exists g', Unmarshal (JObj [("name", JStr "svc"); ("Address", JStr "10.0.0.1")]) = Some g' /\
    Unregistered g' = false) /\
  (exists g', Unmarshal (encode_GlobalService
      (mkGlobalService "svc" [] [http_port 80 8080] ∅ 167772160 true)) = Some g' /\
    Unregistered g' = true).
Proof.
  destruct unregistered_omitempty_roundtrip as (H1 & H2 & H3 & H4).
  split; [apply H1; reflexivity|].
  split; [apply H2; reflexivity|].
  split.
  - eexists. split; [vm_compute; reflexivity|].
    eapply (H3 [("name", JStr "svc"); ("Address", JStr "10.0.0.1")]).
    + vm_compute. reflexivity.
    + intros k Hk. simpl in Hk. destruct Hk as [<-|[<-|[]]]; reflexivity.
  - apply (H4 (mkGlobalService "svc" [] [http_port 80 8080] ∅ 167772160 true)).
    repeat constructor; simpl; lia.
Defined.

(* ------------------------------------------------------------------ *)
(** ** Further properties of the code *)

(** JSON: a [GlobalService] whose strings (map keys and values included)
    are valid UTF-8, whose ports are [uint32] values and whose address is
    an IPv4 address decodes from its own serialization to itself: every
    field, the backends map included, comes back. *)
Theorem GlobalService_roundtrip (g : GlobalService) :
  ValidString (Name g) = true ->
  Forall (fun s => ValidString s = true) (DNSPrefixes g) ->
  Forall (fun p => (ServicePort p < 2 ^ 32)%N /\ (BackendPort p < 2 ^ 32)%N /\
             ValidString (Protocol p) = true /\ ValidString (PortName p) = true) (Ports g) ->
  map_Forall (fun k v => ValidString k = true /\ ValidString v = true) (Backends g) ->
  (Address g < 2 ^ 32)%N ->
  Unmarshal (encode_GlobalService g) = Some g.
Proof.
  intros Hn Hd Hp Hb Ha. unfold Unmarshal, encode_GlobalService.
  rewrite (coerce_valid _ Hn), (map_coerce_valid _ Hd),
    (map_coerce_pairs _ (Forall_sorted_backends _ _ Hb)).
  destruct (decode_slice_map decode_string "" JStr (DNSPrefixes g) [] []) as [d Hds].
  { apply Forall_forall. intros s _ old. reflexivity. }
  destruct (decode_slice_map decode_Port zero_Port encode_Port (Ports g) [] []) as [q Hps].
  { eapply Forall_impl; [exact Hp|]. intros p (H1 & H2 & H3 & H4) old.
    by apply decode_Port_encode. }
  pose proof (decode_backends_obj (sort_by_key (map_to_list (Backends g))) ∅) as Hm.
  rewrite (right_id_L ∅ (∪)), list_to_map_sorted_backends in Hm.
  unfold decode_backends in Hm.
  cbn [app fold_opt]. unfold decode_GlobalService_field at 1. simpl.
  rewrite Hds. simpl. rewrite Hps. simpl. rewrite Hm. simpl.
  rewrite ip_string_nonempty, (ParseIP_ip_string_eq _ Ha). simpl.
  destruct g as [n d' p' b a u]; destruct u; reflexivity.
Qed.

Lemma GlobalService_roundtrip_witness :
  Unmarshal (encode_GlobalService
    (mkGlobalService "svc" ["svc.ns1"] [http_port 80 8080] {[ "A" := "10.1.0.1" ]} 167772161 true)) =
  Some (mkGlobalService "svc" ["svc.ns1"] [http_port 80 8080] {[ "A" := "10.1.0.1" ]} 167772161 true).
Proof.
  apply GlobalService_roundtrip; simpl.
  - reflexivity.
  - repeat constructor.
  - repeat constructor; simpl; lia.
  - apply map_Forall_singleton. split; reflexivity.
  - lia.
Defined.



(** JSON: a port decodes from its own serialization, whatever the port it
    is decoded into, when its port numbers are [uint32] values and its
    strings valid UTF-8; and decoding into a port whose numbers are
    [uint32] values gives one whose numbers are too (a number outside the
    range is an error). *)
Theorem Port_decode :
  (forall p old, (ServicePort p < 2 ^ 32)%N -> (BackendPort p < 2 ^ 32)%N ->
     ValidString (Protocol p) = true -> ValidString (PortName p) = true ->
     decode_Port (encode_Port p) old = Some p) /\
  (forall v old p, (ServicePort old < 2 ^ 32)%N -> (BackendPort old < 2 ^ 32)%N ->
     decode_Port v old = Some p ->
     (ServicePort p < 2 ^ 32)%N /\ (BackendPort p < 2 ^ 32)%N).
Proof.
  split.
  - intros p old Hs Hb H1 H2. by apply decode_Port_encode.
  - intros v old p Hs Hb. destruct v as [| | | | |kvs]; simpl; try discriminate.
    + intros [= <-]. done.
    + by apply decode_Port_bounds.
Qed.

(** JSON: a key that selects none of the fields of [GlobalService] (neither
    a tag nor, after [encoding/json]'s case folding, the folded form of
    one) is ignored, wherever it stands in the object. *)
Theorem Unmarshal_unknown_key (kvs1 kvs2 : list (string * json)) (k : string) (v : json) :
  Forall (fun f => key_matches f k = false)
    ["name"; "dns_prefixes"; "ports"; "backends"; "address"; "unregistered"] ->
  Unmarshal (JObj (kvs1 ++ (k, v) :: kvs2)) = Unmarshal (JObj (kvs1 ++ kvs2)).
Proof.
  intros Hk. repeat (apply Forall_cons in Hk as [? Hk]). unfold Unmarshal.
  rewrite !fold_opt_app. destruct (fold_opt _ _ kvs1) as [[[g ds] ps]|]; [|done].
  cbn [fold_opt]. unfold decode_GlobalService_field at 1.
  repeat match goal with H : key_matches _ k = false |- _ => rewrite H; clear H end.
  done.
Qed.

Lemma Unmarshal_unknown_key_witness :
  Unmarshal (JObj ([("name", JStr "svc")] ++ ("cluster", JStr "A") :: [("unregistered", JBool true)])) =
  Unmarshal (JObj ([("name", JStr "svc")] ++ [("unregistered", JBool true)])).
Proof. apply Unmarshal_unknown_key. repeat constructor. Defined.

(** JSON: a second [backends] key in the same object adds its entries to the
    map decoded so far (later entries winning) instead of replacing it; the
    other fields are left as they were. *)
Theorem Unmarshal_backends_merge (kvs : list (string * json)) (g : GlobalService)
    (l : list (string * string)) :
  Unmarshal (JObj kvs) = Some g ->
  Unmarshal (JObj (kvs ++ [("backends", JObj (map (fun kv => (kv.1, JStr kv.2)) l))])) =
    Some (mkGlobalService (Name g) (DNSPrefixes g) (Ports g)
            (list_to_map (rev l) ∪ Backends g) (Address g) (Unregistered g)).
Proof.
  unfold Unmarshal. intros Hg. apply fmap_Some in Hg as ([[g0 ds] ps] & Hst & ->).
  rewrite fold_opt_app, Hst.
  pose proof (decode_backends_obj l (Backends g0)) as Hm. unfold decode_backends in Hm.
  simpl. by rewrite Hm.
Qed.

Lemma Unmarshal_backends_merge_witness :
  Unmarshal (JObj ([("name", JStr "svc"); ("backends", JObj [("A", JStr "a")])] ++
                   [("backends", JObj (map (fun kv : string * string => (kv.1, JStr kv.2)) [("B", "b")]))])) =
  Some (mkGlobalService "svc" [] [] (list_to_map (rev [("B", "b")]) ∪ <["A" := "a"]> ∅) 0 false).
Proof.
  refine (Unmarshal_backends_merge [("name", JStr "svc"); ("backends", JObj [("A", JStr "a")])]
            (mkGlobalService "svc" [] [] (<["A" := "a"]> ∅) 0 false) [("B", "b")] _).
  vm_compute. reflexivity.
Defined.

(** JSON: a later [ports] key is decoded into the ports already there: an
    array of [n] empty objects, [n] at most their number, keeps the first
    [n] ports as they are and drops the others; the other fields are left
    as they were. *)
Theorem Unmarshal_ports_reuse (kvs : list (string * json)) (g : GlobalService) (n : nat) :
  Unmarshal (JObj kvs) = Some g -> (n <= List.length (Ports g))%nat ->
  Unmarshal (JObj (kvs ++ [("ports", JArr (replicate n (JObj [])))])) =
    Some (mkGlobalService (Name g) (DNSPrefixes g) (take n (Ports g))
            (Backends g) (Address g) (Unregistered g)).
Proof.
  unfold Unmarshal. intros Hg Hn. apply fmap_Some in Hg as ([[g0 ds] ps] & Hst & ->).
  rewrite fold_opt_app, Hst.
  destruct (decode_slice_empty_objs n (Ports g0) ps Hn) as [st Hs].
  simpl. by rewrite Hs.
Qed.

Lemma Unmarshal_ports_reuse_witness :
  Unmarshal (JObj ([("ports", JArr [JObj [("name", JStr "http"); ("service_port", JNum 80)];
                                    JObj [("name", JStr "grpc")]])] ++
                   [("ports", JArr (replicate 1 (JObj [])))])) =
  Some (mkGlobalService "" [] (take 1 [mkPort 80 "" 0 "http"; mkPort 0 "" 0 "grpc"]) ∅ 0 false).
Proof.
  refine (Unmarshal_ports_reuse
            [("ports", JArr [JObj [("name", JStr "http"); ("service_port", JNum 80)];
                             JObj [("name", JStr "grpc")]])]
            (mkGlobalService "" [] [mkPort 80 "" 0 "http"; mkPort 0 "" 0 "grpc"] ∅ 0 false) 1 _ _).
  - vm_compute. reflexivity.
  - simpl. lia.
Defined.

(** JSON: a list of clusters whose names and addresses are valid UTF-8
    decodes from its own serialization to itself. *)
Theorem Clusters_roundtrip (cs : list Cluster) :
  Forall (fun c => ValidString (ClusterName c) = true /\ ValidString (ClusterAddress c) = true) cs ->
  decode_Clusters (encode_Clusters cs) = Some cs.
Proof.
  intros Hcs. unfold decode_Clusters, encode_Clusters.
  destruct (decode_slice_map decode_Cluster zero_Cluster encode_Cluster cs [] []) as [st Hst].
  { eapply Forall_impl; [exact Hcs|]. intros [n a] [H1 H2] old. simpl in *.
    unfold decode_Cluster, encode_Cluster. cbn [ClusterName ClusterAddress].
    rewrite !coerce_valid by done. reflexivity. }
  by rewrite Hst.
Qed.

Lemma Clusters_roundtrip_witness :
  decode_Clusters (encode_Clusters [mkCluster "east" "10.0.0.1"; mkCluster "west" "10.0.0.2"]) =
  Some [mkCluster "east" "10.0.0.1"; mkCluster "west" "10.0.0.2"].
Proof. apply Clusters_roundtrip. repeat constructor. Defined.

(** [k8sClientFor]: an empty kubeconfig path stands for [~/.kube/config],
    which resolves to [.kube/config] in the home directory of the current
    user, or fails with the path and the lookup error when the user cannot
    be looked up; a non-empty path that does not start with [~] is used as
    it is, whatever the user lookup would give. *)
Theorem k8sClientFor_path_spec :
  (forall hs, Forall (fun c => normal_component c = true) hs -> hs <> [] ->
     k8sClientFor_path (Some (mkUser (path_of hs))) "" =
       inr (path_of (hs ++ [".kube"; "config"]))) /\
  k8sClientFor_path None "" = inl (ExpandFailed "~/.kube/config" UserLookupFailed) /\
  (forall u p, p <> "" -> (forall rest, p <> String "~" rest) -> k8sClientFor_path u p = inr p).
Proof.
  split; [|split].
  - intros hs Hhs Hne.
    change (k8sClientFor_path (Some (mkUser (path_of hs))) "") with
      (match expand (Some (mkUser (path_of hs))) (String "~" (path_of [".kube"; "config"])) with
       | (absPath, None) => inr absPath
       | (_, Some err) => inl (ExpandFailed "~/.kube/config" err)
       end).
    rewrite expand_tilde_some. cbn [HomeDir].
    rewrite Join_home by (by apply path_of_nonempty).
    rewrite Clean_path_of_sep; [done|done|done|].
    repeat constructor.
  - reflexivity.
  - intros u p Hp Ht. unfold k8sClientFor_path.
    destruct (String.eqb_spec p "") as [->|_]; [done|].
    destruct p as [|c rest]; [done|]. unfold expand.
    destruct (Ascii.eqb_spec c "~") as [->|Hc]; [by destruct (Ht rest)|done].
Qed.

(** [expand]: [~] followed by a path resolves to that path below the home
    directory of the current user, the separator after the home directory
    written once. *)
Theorem expand_tilde (hs rs : list string) :
  Forall (fun c => normal_component c = true) hs -> hs <> [] ->
  Forall (fun c => normal_component c = true) rs ->
  expand (Some (mkUser (path_of hs))) (String "~" (path_of rs)) = (path_of (hs ++ rs), None).
Proof.
  intros Hhs Hne Hrs. rewrite expand_tilde_some. cbn [HomeDir].
  rewrite Join_home by (by apply path_of_nonempty).
  by rewrite Clean_path_of_sep.
Qed.

Lemma expand_tilde_witness :
  expand (Some (mkUser "/home/u")) "~/x/y" = ("/home/u/x/y", None).
Proof.
  refine (expand_tilde ["home"; "u"] ["x"; "y"] _ _ _); [repeat constructor|done|repeat constructor].
Defined.

(** [expand]: a [~name] prefix is not read as the home directory of user
    [name]; [name] is taken as a directory below the home directory of the
    current user. *)
Theorem expand_tilde_name (hs : list string) (name : string) (rs : list string) :
  Forall (fun c => normal_component c = true) hs -> hs <> [] ->
  normal_component name = true -> Forall (fun c => normal_component c = true) rs ->
  expand (Some (mkUser (path_of hs))) (String "~" (String.append name (path_of rs))) =
    (path_of (hs ++ name :: rs), None).
Proof.
  intros Hhs Hne Hn Hrs. rewrite expand_tilde_some. cbn [HomeDir].
  rewrite Join_home by (by apply path_of_nonempty).
  change (String "/" (String.append name (path_of rs))) with (path_of (name :: rs)).
  rewrite <- path_of_app. rewrite Clean_path_of; [done| |by destruct hs].
  apply Forall_app. split; [done|]. by constructor.
Qed.

Lemma expand_tilde_name_witness :
  expand (Some (mkUser "/home/u")) "~bob/x" = ("/home/u/bob/x", None).
Proof.
  refine (expand_tilde_name ["home"; "u"] "bob" ["x"] _ _ _ _);
    [repeat constructor|done|reflexivity|repeat constructor].
Defined.

(** [expand]: when the home directory is absolute, expanding an expanded
    path changes nothing. *)
Theorem expand_idempotent (u : option User) (p : string) :
  (forall usr, u = Some usr -> exists h, HomeDir usr = String "/" h) ->
  fst (expand u (fst (expand u p))) = fst (expand u p).
Proof.
  intros Hu. destruct p as [|c rest]; [done|].
  destruct (Ascii.eqb_spec c "~") as [->|Hc].
  - destruct u as [usr|]; [|done]. rewrite expand_tilde_some. cbn [fst].
    destruct (Hu usr eq_refl) as [h Hh]. rewrite Hh.
    rewrite Join_home by done.
    destruct (Clean_rooted (String.append h (String "/" rest))) as [r Hr].
    change (String.append (String "/" h) (String "/" rest))
      with (String "/" (String.append h (String "/" rest))).
    rewrite Hr. reflexivity.
  - rewrite expand_other by done. cbn [fst]. by rewrite expand_other.
Qed.

Lemma expand_idempotent_witness :
  fst (expand (Some (mkUser "/home/u")) (fst (expand (Some (mkUser "/home/u")) "~/x"))) =
  fst (expand (Some (mkUser "/home/u")) "~/x").
Proof.
  apply expand_idempotent. intros usr [= <-]. eexists. reflexivity.
Defined.
